(** * spinarak: a concurrent word counter for web pages

    A verification development for [spinarak.go].  The program takes a
    target word, a number of workers and a list of links; a pool of
    goroutines fetches the links and counts, on each page, the
    whitespace-delimited words equal to the target; [main] prints one
    [Result] per link.

    The development has three layers:
    - the byte-level scanner used by [countOccurrences]
      ([bufio.Scanner] with the [bufio.ScanWords] split function, over
      [utf8.DecodeRune]), transcribed from the Go library it calls;
    - [countOccurrences] and the body of the worker loop of
      [wordsOnPage];
    - [main] and its goroutines as an interleaving transition system
      over two buffered channels. *)

From Stdlib.Strings Require Import Byte String.
From Stdlib Require Import List NArith ZArith Lia Bool Arith Permutation.
Import ListNotations.

(** ** Go strings and errors *)

(** A Go string is a sequence of bytes. *)
Definition gostring := list byte.

Definition str (s : string) : gostring := list_byte_of_string s.

Definition gostring_eqb (a b : gostring) : bool :=
  if list_eq_dec Byte.byte_eq_dec a b then true else false.

(** The non-nil values of Go's [error] interface that the program can
    meet; a nullable [error] is an [option error]. *)
Inductive error : Type :=
| io_EOF                         (* io.EOF *)
| ErrTooLong                     (* bufio.ErrTooLong *)
| ErrAdvanceTooFar               (* bufio.ErrAdvanceTooFar *)
| errors_New (msg : string)      (* errors.New(msg) *)
| read_error (msg : string)      (* a failure of a Read on a response body *)
| url_Error (msg : string).      (* what http.Get returns when the transport fails *)

Definition is_nil (e : option error) : bool :=
  match e with None => true | Some _ => false end.

(** ** unicode/utf8: DecodeRune *)

Module utf8.

Definition RuneError : N := 0xFFFD.

(** Maximum number of bytes of a UTF-8 encoded character. *)
Definition UTFMax : nat := 4.

(** The entry of the table [first] for a leading byte: ASCII, invalid, or
    the size of the encoding with the accepted range of the second byte. *)
Inductive firstInfo : Type :=
| as_
| xx
| multi (size : nat) (lo hi : N).

Definition locb : N := 0x80.
Definition hicb : N := 0xBF.

Definition first (p0 : N) : firstInfo :=
  if (p0 <? 0x80)%N then as_
  else if (p0 <? 0xC2)%N then xx
  else if (p0 <? 0xE0)%N then multi 2 locb hicb          (* s1 *)
  else if (p0 =? 0xE0)%N then multi 3 0xA0 hicb          (* s2 *)
  else if (p0 <? 0xED)%N then multi 3 locb hicb          (* s3 *)
  else if (p0 =? 0xED)%N then multi 3 locb 0x9F          (* s4 *)
  else if (p0 <? 0xF0)%N then multi 3 locb hicb          (* s3 *)
  else if (p0 =? 0xF0)%N then multi 4 0x90 hicb          (* s5 *)
  else if (p0 <? 0xF4)%N then multi 4 locb hicb          (* s6 *)
  else if (p0 =? 0xF4)%N then multi 4 locb 0x8F          (* s7 *)
  else xx.

Definition mask2 : N := 0x1F.
Definition mask3 : N := 0x0F.
Definition mask4 : N := 0x07.
Definition maskx : N := 0x3F.

(** [DecodeRune p] is the first rune of [p] and its width in bytes;
    [(RuneError, 1)] on an invalid or truncated encoding, [(RuneError, 0)]
    on the empty slice. *)
Definition DecodeRune (p : list byte) : N * nat :=
  match p with
  | [] => (RuneError, 0)
  | c0 :: p1 =>
    let p0 := Byte.to_N c0 in
    match first p0 with
    | as_ => (p0, 1)
    | xx => (RuneError, 1)
    | multi sz lo hi =>
      if length p <? sz then (RuneError, 1) else
      match p1 with
      | [] => (RuneError, 1)
      | c1 :: p2 =>
        let b1 := Byte.to_N c1 in
        if ((b1 <? lo) || (hi <? b1))%N then (RuneError, 1) else
        if sz <=? 2 then
          (N.lor (N.shiftl (N.land p0 mask2) 6) (N.land b1 maskx), 2)
        else
        match p2 with
        | [] => (RuneError, 1)
        | c2 :: p3 =>
          let b2 := Byte.to_N c2 in
          if ((b2 <? locb) || (hicb <? b2))%N then (RuneError, 1) else
          if sz <=? 3 then
            (N.lor (N.lor (N.shiftl (N.land p0 mask3) 12)
                          (N.shiftl (N.land b1 maskx) 6))
                   (N.land b2 maskx), 3)
          else
          match p3 with
          | [] => (RuneError, 1)
          | c3 :: _ =>
            let b3 := Byte.to_N c3 in
            if ((b3 <? locb) || (hicb <? b3))%N then (RuneError, 1) else
            (N.lor (N.lor (N.lor (N.shiftl (N.land p0 mask4) 18)
                                 (N.shiftl (N.land b1 maskx) 12))
                          (N.shiftl (N.land b2 maskx) 6))
                   (N.land b3 maskx), 4)
          end
        end
      end
    end
  end.

End utf8.

(** ** bufio: ScanWords and Scanner *)

Module bufio.

(** [isSpace] reports whether the rune is a Unicode white space
    character. *)
Definition isSpace (r : N) : bool :=
  if (r <=? 0xFF)%N then
    (* ' ', '\t', '\n', '\v', '\f', '\r', U+0085, U+00A0 *)
    ((r =? 0x20) || (r =? 0x09) || (r =? 0x0A) || (r =? 0x0B) ||
     (r =? 0x0C) || (r =? 0x0D) || (r =? 0x85) || (r =? 0xA0))%N
  else if ((0x2000 <=? r) && (r <=? 0x200A))%N then true
  else
    ((r =? 0x1680) || (r =? 0x2028) || (r =? 0x2029) ||
     (r =? 0x202F) || (r =? 0x205F) || (r =? 0x3000))%N.

(** First loop of [ScanWords]: skip leading spaces.  [rest] is
    [data[start:]]; the result is the final [start]. *)
Fixpoint skipSpaces (fuel : nat) (rest : list byte) (start : nat) : nat :=
  match fuel with
  | 0 => start
  | S fuel' =>
    match rest with
    | [] => start
    | _ :: _ =>
      let (r, width) := utf8.DecodeRune rest in
      if isSpace r then skipSpaces fuel' (skipn width rest) (width + start)
      else start
    end
  end.

(** Second loop of [ScanWords]: scan until a space.  [rest] is
    [data[i:]]; the result is [Some (i, width)] at the first space. *)
Fixpoint findSpace (fuel : nat) (rest : list byte) (i : nat) : option (nat * nat) :=
  match fuel with
  | 0 => None
  | S fuel' =>
    match rest with
    | [] => None
    | _ :: _ =>
      let (r, width) := utf8.DecodeRune rest in
      if isSpace r then Some (i, width)
      else findSpace fuel' (skipn width rest) (width + i)
    end
  end.

(** [ScanWords data atEOF] is the split function: the number of bytes
    to advance and the next space-delimited word, if one is complete.
    It never returns an error. *)
Definition ScanWords (data : list byte) (atEOF : bool) : nat * option (list byte) :=
  let start := skipSpaces (length data) data 0 in
  match findSpace (length data) (skipn start data) start with
  | Some (i, width) =>
    (i + width, Some (firstn (i - start) (skipn start data)))
  | None =>
    if atEOF && negb (length (skipn start data) =? 0) then
      (length data, Some (skipn start data))
    else (start, None)
  end.

(** An [io.Reader] over a stream that holds the bytes [pending] and
    then ends with [fin]: [io_EOF] at a clean end, another error when
    the read fails.  A call of [Read] may deliver fewer bytes than the
    caller has room for: [chunks] bounds the next calls, one number per
    call ([k] for at most [k + 1] bytes), and when it is used up a call
    fills the room.  The reader reports [fin] together with the last
    bytes when [early] is set (as the body of an HTTP response does),
    and otherwise on a call of its own, which delivers no byte.  A call
    that finds bytes and room delivers at least one. *)
Record Reader : Type := mkReader {
  pending : list byte;
  fin : error;
  chunks : list nat;
  early : bool
}.

Definition Read (rd : Reader) (room : nat) : list byte * option error * Reader :=
  match pending rd with
  | [] => ([], Some (fin rd), rd)
  | _ :: _ =>
    let n := match chunks rd with
             | [] => room
             | k :: _ => Nat.min (S k) room
             end in
    (firstn n (pending rd),
     match skipn n (pending rd) with
     | [] => if early rd then Some (fin rd) else None
     | _ :: _ => None
     end,
     mkReader (skipn n (pending rd)) (fin rd) (tl (chunks rd)) (early rd))
  end.

Definition MaxScanTokenSize : nat := 64 * 1024.
Definition startBufSize : nat := 4096.

(** The scanner.  [data] is the unprocessed part of the buffer,
    [buf[start:end]], so that [end = start + length data]; [buf_len] is
    [len(buf)]. *)
Record Scanner : Type := mkScanner {
  r : Reader;
  maxTokenSize : nat;
  token : option (list byte);
  buf_len : nat;
  start : nat;
  data : list byte;
  err : option error
}.

Definition end_ (s : Scanner) : nat := start s + length (data s).

Definition NewScanner (rd : Reader) : Scanner :=
  mkScanner rd MaxScanTokenSize None 0 0 [] None.

Definition setErr (s : Scanner) (e : error) : Scanner :=
  match err s with
  | None | Some io_EOF =>
    mkScanner (r s) (maxTokenSize s) (token s) (buf_len s) (start s) (data s) (Some e)
  | Some _ => s
  end.

(** [Err] returns the first non-EOF error met by the scanner. *)
Definition Err (s : Scanner) : option error :=
  match err s with
  | Some io_EOF => None
  | e => e
  end.

Definition Text (s : Scanner) : gostring :=
  match token s with Some t => t | None => [] end.

(** The stages of one turn of the loop of [Scan], in the order of the
    library's code. *)

(** See if we can get a token with what we already have; if we have
    run out of data but have an error, give the split function a chance
    to recover a remaining token.  [inr] is a return from [Scan]. *)
Definition tryToken (s : Scanner) : Scanner + (bool * Scanner) :=
  if negb (length (data s) =? 0) || negb (is_nil (err s)) then
    let (advance, tok) := ScanWords (data s) (negb (is_nil (err s))) in
    if length (data s) <? advance then
      inr (false, setErr s ErrAdvanceTooFar)
    else
      let s1 := mkScanner (r s) (maxTokenSize s) tok (buf_len s)
                          (advance + start s) (skipn advance (data s)) (err s) in
      match tok with
      | Some _ => inr (true, s1)
      | None => inl s1
      end
  else inl s.

(** We cannot generate a token with what we are holding and have
    already hit EOF or an I/O error: shut it down. *)
Definition shutDown (s : Scanner) : Scanner :=
  mkScanner (r s) (maxTokenSize s) (token s) (buf_len s) 0 [] (err s).

(** Must read more data: first, shift the data to the beginning of the
    buffer if there is lots of empty space or space is needed. *)
Definition shiftData (s : Scanner) : Scanner :=
  if (0 <? start s) &&
     ((end_ s =? buf_len s) || (Nat.div2 (buf_len s) <? start s)) then
    mkScanner (r s) (maxTokenSize s) (token s) (buf_len s) 0 (data s) (err s)
  else s.

(** Is the buffer full?  If so, resize, up to [maxTokenSize]. *)
Definition growBuffer (s : Scanner) : Scanner + (bool * Scanner) :=
  if end_ s =? buf_len s then
    if maxTokenSize s <=? buf_len s then
      inr (false, setErr s ErrTooLong)
    else
      let newSize := buf_len s * 2 in
      let newSize := if newSize =? 0 then startBufSize else newSize in
      let newSize := Nat.min newSize (maxTokenSize s) in
      inl (mkScanner (r s) (maxTokenSize s) (token s) newSize 0 (data s) (err s))
  else inl s.

(** Finally we can read some input, into [buf[end:len(buf)]].  The
    buffer has room here and the reader delivers a byte or an error, so
    the loop over empty reads makes one turn. *)
Definition readMore (s : Scanner) : Scanner :=
  let '(bytes, e, rd) := Read (r s) (buf_len s - end_ s) in
  let s' := mkScanner rd (maxTokenSize s) (token s) (buf_len s)
                      (start s) (data s ++ bytes) (err s) in
  match e with
  | Some e' => setErr s' e'
  | None => s'
  end.

(** [Scan] advances the scanner to the next token; it returns [false]
    when the scan stops, at the end of the input or at an error.  The
    loop runs on [fuel]; [None] means the fuel ran out. *)
Fixpoint Scan (fuel : nat) (s : Scanner) : option (bool * Scanner) :=
  match fuel with
  | 0 => None
  | S fuel' =>
    match tryToken s with
    | inr res => Some res
    | inl s1 =>
      if negb (is_nil (err s1)) then Some (false, shutDown s1)
      else
        match growBuffer (shiftData s1) with
        | inr res => Some res
        | inl s3 => Scan fuel' (readMore s3)
        end
    end
  end.

End bufio.

(** ** countOccurrences *)

Definition uint_max : N := 2 ^ 64.

(** [count++] on a [uint]. *)
Definition uint_incr (count : N) : N := ((count + 1) mod uint_max)%N.

(** The loop [for scanner.Scan() { if word == scanner.Text() { count++ } }]. *)
Fixpoint countLoop (fuel : nat) (word : gostring) (scanner : bufio.Scanner) (count : N)
  : option (N * bufio.Scanner) :=
  match fuel with
  | 0 => None
  | S fuel' =>
    match bufio.Scan fuel scanner with
    | None => None
    | Some (true, scanner') =>
      countLoop fuel' word scanner'
                (if gostring_eqb word (bufio.Text scanner') then uint_incr count else count)
    | Some (false, scanner') => Some (count, scanner')
    end
  end.

(** [countOccurrences word s] with the loops run on [fuel]. *)
Definition countOccurrences_fuel (fuel : nat) (word : gostring) (s : bufio.Reader)
  : option (N * option error) :=
  let scanner := bufio.NewScanner s in   (* scanner.Split(bufio.ScanWords) *)
  match countLoop fuel word scanner 0%N with
  | None => None
  | Some (count, scanner') =>
    match bufio.Err scanner' with
    | Some err => Some (count, Some err)
    | None => Some (count, None)
    end
  end.

(** Fuel that is enough for every reader (see [countOccurrences_fuel_enough]). *)
Definition fuel_for (s : bufio.Reader) : nat := 3 + length (bufio.pending s).

Definition countOccurrences (word : gostring) (s : bufio.Reader) : N * option error :=
  match countOccurrences_fuel (fuel_for s) word s with
  | Some res => res
  | None => (0%N, None)
  end.

(** The body of a page that holds [text]: it is read in one piece and
    ends with [io.EOF], which comes with the last bytes. *)
Definition page (text : string) : bufio.Reader :=
  bufio.mkReader (str text) io_EOF [] true.

(** ** net/http *)

Module http.

Record Response : Type := mkResponse {
  StatusCode : Z;
  Body : bufio.Reader
}.

End http.

(** The web, as [http.Get] sees it: what a GET of a link returns, a
    response ([inl], [err == nil]) or the error of the transport
    ([inr], [err != nil]).  One GET per link is made, so a fixed outcome
    per link is all the program can observe. *)
Definition Web : Type := gostring -> http.Response + error.

(** ** Result and wordsOnPage *)

(** A [Result] represents the outcome from counting the occurrence of
    a word on a web page. *)
Record Result : Type := mkResult {
  link : gostring;        (* the path to the page that was inspected *)
  count : N;              (* the number of occurrences of the word *)
  err : option error      (* an encountered error, if there was one *)
}.

(** The body of the loop of [wordsOnPage] for one [link]: the Results
    it sends over the [results] channel, in order. *)
Definition wordsOnPage_body (web : Web) (word link : gostring) : list Result :=
  match web link with                                 (* res, err := http.Get(link) *)
  | inr err => [mkResult link 0 (Some err)]           (* err != nil *)
  | inl res =>
    if negb (http.StatusCode res =? 200)%Z then
      [mkResult link 0 (Some (errors_New "Did not receive 200 OK"))]
    else
      let (count, err) := countOccurrences word (http.Body res) in
      [mkResult link count err]
  end.

(** ** parseCLI *)

Definition nl : byte := "010"%byte.    (* \n *)
Definition tab : byte := "009"%byte.   (* \t *)

(** A brief description of program usage. *)
Definition usage : gostring :=
  nl :: str "This program accepts one or more URLs as positional arguments and" ++
  nl :: str "outputs the number of times the specified target word was found" ++
  nl :: str "on each page." ++ [nl; nl].

Module flag.

(** What [flag.PrintDefaults] writes for the two flags of the program,
    in the order of their names. *)
Definition PrintDefaults : gostring :=
  str "  -word string" ++ nl :: str "    " ++ tab :: str "The word to search for." ++
  nl :: str "  -workers uint" ++ nl :: str "    " ++ tab ::
  str "The number of workers to use. (default 1)" ++ [nl].

(** The function that [parseCLI] stores in [flag.Usage]; [prog] is
    [os.Args[0]]. *)
Definition Usage (prog : gostring) : gostring :=
  str "Usage: " ++ prog ++ str " [options] URL1 [URL2 [URL3 ...]]" ++ [nl] ++
  usage ++ PrintDefaults.

End flag.

(** A function that may end the process: it returns, or it calls
    [os.Exit] after what it has written to the standard error. *)
Inductive Outcome (A : Type) : Type :=
| Return (a : A)
| Exit (code : Z) (stderr : gostring).

Arguments Return {A} _.
Arguments Exit {A} _ _.

(** [parseCLI] from the point where [flag.Parse] has returned: [word]
    and [numWorkers] are the values it stored for the two flags and
    [args] the positional arguments it left ([flag.Args()]). *)
Definition parseCLI (prog word : gostring) (numWorkers : Z) (args : list gostring)
  : Outcome (gostring * Z * list gostring) :=
  if gostring_eqb word [] then
    Exit 1 (str "Need a word to process." ++ [nl; nl] ++ flag.Usage prog)
  else if (numWorkers <? 1)%Z then
    Exit 1 (str "Number of workers must be greater than 0." ++ [nl; nl] ++
            flag.Usage prog)
  else if length args <? 1 then
    Exit 1 (str "Need links to process." ++ [nl; nl] ++ flag.Usage prog)
  else
    Return (word, numWorkers, args).

(** ** Result.String *)

Module fmt.

Definition digit (d : N) : byte :=
  match Byte.of_N (Byte.to_N "0"%byte + d) with
  | Some b => b
  | None => "0"%byte
  end.

(** The verb [%d] on an unsigned integer, as [fmtInteger] writes it in
    base 10: the digits are put in front of [buf], the last one first. *)
Fixpoint fmtInteger_loop (fuel : nat) (u : N) (buf : list byte) : list byte :=
  match fuel with
  | 0 => buf
  | S fuel' =>
    if (10 <=? u)%N then                          (* for u >= 10 *)
      let next := (u / 10)%N in
      fmtInteger_loop fuel' next (digit (u - next * 10) :: buf)
    else digit u :: buf
  end.

(** A [uint] has at most twenty digits. *)
Definition fmtInteger (u : N) : list byte := fmtInteger_loop 20 u [].

(** [e.Error()]. *)
Definition Error (e : error) : gostring :=
  match e with
  | io_EOF => str "EOF"
  | ErrTooLong => str "bufio.Scanner: token too long"
  | ErrAdvanceTooFar =>
    str "bufio.Scanner: SplitFunc returns advance count beyond input"
  | errors_New msg => str msg
  | read_error msg => str msg
  | url_Error msg => str msg
  end.

(** The verb [%v] on a value of type [error]. *)
Definition verb_v (e : option error) : gostring :=
  match e with
  | None => str "<nil>"
  | Some e => Error e
  end.

End fmt.

(** Formats a Result as a string. *)
Definition Result_String (r : Result) : gostring :=
  link r ++ nl :: tab :: str "count: " ++ fmt.fmtInteger (count r) ++
  nl :: tab :: str "error: " ++ fmt.verb_v (err r).

(** The number that a sequence of decimal digits writes. *)
Definition digits_value (l : list byte) : N :=
  fold_left (fun a b => (10 * a + (Byte.to_N b - Byte.to_N "0"%byte))%N) l 0%N.

Definition is_digit (b : byte) : Prop :=
  (Byte.to_N "0"%byte <= Byte.to_N b <= Byte.to_N "9"%byte)%N.

(** ** Channels *)

(** A buffered channel: the queued values, oldest first, the capacity
    given to [make], and whether [close] was called. *)
Record chan (A : Type) : Type := mkChan {
  buf : list A;
  cap : nat;
  closed : bool
}.

Arguments mkChan {A} _ _ _.
Arguments buf {A} _.
Arguments cap {A} _.
Arguments closed {A} _.

Definition make_chan {A : Type} (n : nat) : chan A := mkChan [] n false.

(** A send proceeds when the buffer has room; it blocks otherwise. *)
Definition has_room {A : Type} (c : chan A) : bool := length (buf c) <? cap c.

Definition push {A : Type} (c : chan A) (x : A) : chan A :=
  mkChan (buf c ++ [x]) (cap c) (closed c).

Definition set_buf {A : Type} (c : chan A) (q : list A) : chan A :=
  mkChan q (cap c) (closed c).

Definition close {A : Type} (c : chan A) : chan A :=
  mkChan (buf c) (cap c) true.

(** ** The goroutines *)

(** Where a goroutine running [wordsOnPage] stands. *)
Inductive Worker : Type :=
| Receiving                      (* at [for link := range links] *)
| Fetching (link : gostring)     (* has received [link], before [http.Get] *)
| Sending (out : list Result)    (* has still to send [out] over [results] *)
| Returned.                      (* [links] was closed and drained *)

(** Where [main] stands, after [parseCLI] and the two [make]. *)
Inductive MainPC : Type :=
| Spawning (i : Z)                  (* [for i := 0; i < int(numWorkers); i++] *)
| Submitting (rest : list gostring) (* [for _, link := range links], [rest] to send *)
| Closing                           (* [close(link_chan)] *)
| Collecting (i : Z)                (* [for i := 0; i < len(links); i++] *)
| Exited.

Record State : Type := mkState {
  link_chan : chan gostring;
  result_chan : chan Result;
  workers : list Worker;
  pc : MainPC;
  stdout : list Result              (* the Results printed so far *)
}.

(** [int(numWorkers)]: a [uint] converted to [int] keeps its 64 bits,
    read in two's complement. *)
Definition int_of_uint (n : Z) : Z := ((n + 2 ^ 63) mod 2 ^ 64 - 2 ^ 63)%Z.

Section Program.

Variable web : Web.
Variable word : gostring.
Variable numWorkers : Z.
Variable links : list gostring.

(** The state of [main] after the two channels are made, both with
    capacity [len(links)]. *)
Definition main_start : State :=
  mkState (make_chan (length links)) (make_chan (length links)) [] (Spawning 0) [].

(** One step of a goroutine running [wordsOnPage] on the two channels;
    [None] when it is blocked or has returned. *)
Definition worker_step (w : Worker) (lc : chan gostring) (rc : chan Result)
  : option (Worker * chan gostring * chan Result) :=
  match w with
  | Receiving =>
    match buf lc with
    | l :: q => Some (Fetching l, set_buf lc q, rc)
    | [] => if closed lc then Some (Returned, lc, rc) else None
    end
  | Fetching l => Some (Sending (wordsOnPage_body web word l), lc, rc)
  | Sending (res :: out) =>
    if has_room rc then Some (Sending out, lc, push rc res) else None
  | Sending [] => Some (Receiving, lc, rc)
  | Returned => None
  end.

(** One step of [main]; [None] when it is blocked or has returned.
    The counter [i] of the first loop stays below [int(numWorkers)] and
    cannot overflow. *)
Definition main_step (s : State) : option State :=
  match pc s with
  | Spawning i =>
    if (i <? int_of_uint numWorkers)%Z then
      (* go wordsOnPage(word, link_chan, result_chan) *)
      Some (mkState (link_chan s) (result_chan s) (workers s ++ [Receiving])
                    (Spawning (i + 1)) (stdout s))
    else
      Some (mkState (link_chan s) (result_chan s) (workers s)
                    (Submitting links) (stdout s))
  | Submitting (l :: rest) =>
    (* link_chan <- link *)
    if has_room (link_chan s) then
      Some (mkState (push (link_chan s) l) (result_chan s) (workers s)
                    (Submitting rest) (stdout s))
    else None
  | Submitting [] =>
    Some (mkState (link_chan s) (result_chan s) (workers s) Closing (stdout s))
  | Closing =>
    Some (mkState (close (link_chan s)) (result_chan s) (workers s)
                  (Collecting 0) (stdout s))
  | Collecting i =>
    if (i <? Z.of_nat (length links))%Z then
      (* fmt.Println(<-result_chan) *)
      match buf (result_chan s) with
      | res :: q =>
        Some (mkState (link_chan s) (set_buf (result_chan s) q) (workers s)
                      (Collecting (i + 1)) (stdout s ++ [res]))
      | [] => None
      end
    else
      Some (mkState (link_chan s) (result_chan s) (workers s) Exited (stdout s))
  | Exited => None
  end.

(** The program interleaves the steps of [main] and of the goroutines
    it has started; it ends when [main] returns. *)
Inductive step : State -> State -> Prop :=
| step_main (s s' : State) :
    main_step s = Some s' -> step s s'
| step_worker (s : State) (pre post : list Worker) (w w' : Worker)
              (lc : chan gostring) (rc : chan Result) :
    pc s <> Exited ->
    workers s = pre ++ w :: post ->
    worker_step w (link_chan s) (result_chan s) = Some (w', lc, rc) ->
    step s (mkState lc rc (pre ++ w' :: post) (pc s) (stdout s)).

Inductive steps (s : State) : State -> Prop :=
| steps_refl : steps s s
| steps_step (s' s'' : State) : steps s s' -> step s' s'' -> steps s s''.

Definition reachable (s : State) : Prop := steps main_start s.

(** A schedule: [main] runs while it can, then the first goroutine that
    can. *)
Fixpoint first_worker (pre ws : list Worker) (lc : chan gostring) (rc : chan Result)
  : option (list Worker * chan gostring * chan Result) :=
  match ws with
  | [] => None
  | w :: post =>
    match worker_step w lc rc with
    | Some (w', lc', rc') => Some (pre ++ w' :: post, lc', rc')
    | None => first_worker (pre ++ [w]) post lc rc
    end
  end.

Definition sched (s : State) : option State :=
  match main_step s with
  | Some s' => Some s'
  | None =>
    match pc s with
    | Exited => None
    | _ =>
      match first_worker [] (workers s) (link_chan s) (result_chan s) with
      | Some (ws, lc, rc) => Some (mkState lc rc ws (pc s) (stdout s))
      | None => None
      end
    end
  end.

Fixpoint run (fuel : nat) (s : State) : State :=
  match fuel with
  | 0 => s
  | S fuel' =>
    match sched s with
    | Some s' => run fuel' s'
    | None => s
    end
  end.

(** *** What the proofs about the program keep track of *)

(** The Results a goroutine has still to send. *)
Definition worker_results (w : Worker) : list Result :=
  match w with
  | Fetching l => wordsOnPage_body web word l
  | Sending out => out
  | Receiving | Returned => []
  end.

(** The links [main] has still to send. *)
Definition unsent (p : MainPC) : list gostring :=
  match p with
  | Spawning _ => links
  | Submitting rest => rest
  | Closing | Collecting _ | Exited => []
  end.

(** Every Result of the run, wherever it stands: not yet asked for,
    queued as a link, with a goroutine, queued as a Result, or printed. *)
Definition all_results (s : State) : list Result :=
  flat_map (wordsOnPage_body web word) (unsent (pc s)) ++
  flat_map (wordsOnPage_body web word) (buf (link_chan s)) ++
  flat_map worker_results (workers s) ++
  buf (result_chan s) ++
  stdout s.

(** All the goroutines are started. *)
Definition spawned (s : State) : Prop :=
  Z.of_nat (length (workers s)) = Z.max 0 (int_of_uint numWorkers).

Definition pc_ok (s : State) : Prop :=
  match pc s with
  | Spawning i =>
    (0 <= i <= Z.max 0 (int_of_uint numWorkers))%Z /\
    Z.of_nat (length (workers s)) = i /\
    closed (link_chan s) = false /\ stdout s = []
  | Submitting _ | Closing =>
    spawned s /\ closed (link_chan s) = false /\ stdout s = []
  | Collecting i =>
    spawned s /\ closed (link_chan s) = true /\ i = Z.of_nat (length (stdout s))
  | Exited =>
    spawned s /\ closed (link_chan s) = true /\ length links <= length (stdout s)
  end.

(** The invariant of the run. *)
Record invariant (s : State) : Prop := mk_invariant {
  inv_results :
    Permutation (all_results s) (flat_map (wordsOnPage_body web word) links);
  inv_cap_links : cap (link_chan s) = length links;
  inv_cap_results : cap (result_chan s) = length links;
  inv_pc : pc_ok s;
  inv_returned :
    In Returned (workers s) ->
    closed (link_chan s) = true /\ buf (link_chan s) = []
}.

(** A measure that every step of the program decreases. *)
Definition worker_weight (w : Worker) : nat :=
  match w with
  | Returned => 0
  | Receiving => 1
  | Sending out => 2 + 2 * length out
  | Fetching _ => 5
  end.

Definition pc_weight (p : MainPC) : nat :=
  match p with
  | Exited => 0
  | Collecting _ => 1
  | Closing => 2
  | Submitting rest => 3 + 6 * length rest
  | Spawning i =>
    4 + 6 * length links + 2 * Z.to_nat (int_of_uint numWorkers - i)
  end.

Definition measure (s : State) : nat :=
  pc_weight (pc s) + 5 * length (buf (link_chan s)) +
  list_sum (map worker_weight (workers s)) + length (buf (result_chan s)).

(** The Results of the run in the order in which a single goroutine
    delivers them: printed, queued, with the goroutine, and those of
    the links queued and of the links still to send. *)
Definition ordered_results (s : State) : list Result :=
  stdout s ++ buf (result_chan s) ++
  flat_map worker_results (workers s) ++
  flat_map (wordsOnPage_body web word) (buf (link_chan s)) ++
  flat_map (wordsOnPage_body web word) (unsent (pc s)).

(** Runs of a given number of steps. *)
Inductive steps_n (s : State) : nat -> State -> Prop :=
| steps_n_O : steps_n s 0 s
| steps_n_S (n : nat) (s' s'' : State) :
    steps_n s n s' -> step s' s'' -> steps_n s (S n) s''.

(** A goroutine that holds neither a link nor a Result. *)
Definition idle (w : Worker) : Prop :=
  w = Receiving \/ w = Sending [] \/ w = Returned.

(** A state in which neither [main] nor a goroutine can take a step,
    although [main] has not returned. *)
Definition deadlocked (s : State) : Prop :=
  pc s <> Exited /\ forall s', ~ step s s'.

End Program.

(** ** The token counter as the specification words it *)

Module Spec.

(** A finished token is reported unless it is empty. *)
Definition emit (cur : gostring) : list gostring :=
  match cur with [] => [] | _ :: _ => [cur] end.

(** Walk the stream character by character: a white space character
    ends the current token, any other character extends it. *)
Fixpoint split_ws (fuel : nat) (s : list byte) (cur : gostring) : list gostring :=
  match fuel with
  | 0 => []
  | S fuel' =>
    match s with
    | [] => emit cur
    | _ :: _ =>
      let (c, width) := utf8.DecodeRune s in
      if bufio.isSpace c then emit cur ++ split_ws fuel' (skipn width s) []
      else split_ws fuel' (skipn width s) (cur ++ firstn width s)
    end
  end.

(** The whitespace-delimited tokens of a stream. *)
Definition tokens (s : list byte) : list gostring := split_ws (S (length s)) s [].

(** The number of tokens byte-for-byte equal to [target]. *)
Definition count (target : gostring) (s : list byte) : nat :=
  count_occ (list_eq_dec Byte.byte_eq_dec) (tokens s) target.

End Spec.

(** The tokens of [s] when the token [cur] is already under way. *)
Definition tokens_from (s : list byte) (cur : gostring) : list gostring :=
  Spec.split_ws (S (length s)) s cur.

(** What the scanner has still to deliver: the unprocessed part of its
    buffer, then what its reader has not delivered yet. *)
Definition stream (s : bufio.Scanner) : list byte :=
  bufio.data s ++ bufio.pending (bufio.r s).

(** The invariant of a scanner made by [NewScanner] over a [Reader]. *)
Record scanner_ok (s : bufio.Scanner) : Prop := mk_scanner_ok {
  ok_max : bufio.maxTokenSize s = bufio.MaxScanTokenSize;
  ok_end : bufio.end_ s <= bufio.buf_len s;
  ok_len : bufio.buf_len s <= bufio.maxTokenSize s;
  ok_err : bufio.err s = None \/
           (bufio.err s = Some (bufio.fin (bufio.r s)) /\
            bufio.pending (bufio.r s) = [])
}.

(** Turns of the loop of [Scan] that a scanner may still need. *)
Definition need (s : bufio.Scanner) : nat :=
  length (bufio.pending (bufio.r s)) + (if is_nil (bufio.err s) then 2 else 1).

(** What a call of [Scan] on [s] that returns [b] and leaves [s'] has
    done: delivered the next token of the stream, or stopped at the end
    of a stream without further tokens, or stopped at a token too long
    for the buffer. *)
Definition scan_result (s : bufio.Scanner) (b : bool) (s' : bufio.Scanner) : Prop :=
  if b then
    exists t,
      bufio.token s' = Some t /\
      (length t <= bufio.MaxScanTokenSize /\
       (length t < bufio.MaxScanTokenSize \/ stream s' = [])) /\
      Spec.tokens (stream s) = t :: Spec.tokens (stream s') /\
      scanner_ok s' /\
      bufio.fin (bufio.r s') = bufio.fin (bufio.r s) /\
      length (stream s') < length (stream s)
  else
    (bufio.err s' = Some (bufio.fin (bufio.r s)) /\ Spec.tokens (stream s) = []) \/
    (bufio.err s' = Some ErrTooLong /\
     exists t rest, Spec.tokens (stream s) = t :: rest /\
                    bufio.MaxScanTokenSize <= length t + 3).

(** The number of tokens of the list [toks] equal to [word]. *)
Definition matches (word : gostring) (toks : list gostring) : N :=
  N.of_nat (count_occ (list_eq_dec Byte.byte_eq_dec) toks word).

(** The error left by a stream that ends with [e]: none at a clean end. *)
Definition clean (e : error) : option error :=
  match e with io_EOF => None | _ => Some e end.

(** Every token of the stream, with the character that ends it, has
    room in the buffer of the scanner. *)
Definition fits (s : list byte) : Prop :=
  Forall (fun t => length t + utf8.UTFMax <= bufio.MaxScanTokenSize) (Spec.tokens s).

(** The six ASCII white space bytes: space, tab, line feed, vertical
    tab, form feed and carriage return. *)
Definition ascii_space (b : byte) : bool :=
  ((Byte.to_N b =? 0x20) || ((0x09 <=? Byte.to_N b) && (Byte.to_N b <=? 0x0D)))%N.

(** The fields of a stream of ASCII bytes: the maximal runs of bytes
    that are not ASCII white space. *)
Fixpoint ascii_fields (s : list byte) (cur : gostring) : list gostring :=
  match s with
  | [] => Spec.emit cur
  | b :: s' =>
    if ascii_space b then Spec.emit cur ++ ascii_fields s' []
    else ascii_fields s' (cur ++ [b])
  end.

(** [fits], decided. *)
Definition fitsb (s : list byte) : bool :=
  forallb (fun t => length t + utf8.UTFMax <=? bufio.MaxScanTokenSize) (Spec.tokens s).

(** The tokens that the scanner can deliver: none is longer than the
    buffer, and one that fills the buffer is the last one. *)
Fixpoint short_tokens (l : list gostring) : Prop :=
  match l with
  | [] => True
  | t :: l' =>
    length t <= bufio.MaxScanTokenSize /\
    (length t < bufio.MaxScanTokenSize \/ l' = []) /\
    short_tokens l'
  end.

(** How the loop of [countOccurrences] stops after the tokens
    [emitted]: at the end of the stream, or at a token too long. *)
Definition stopped (s : bufio.Scanner) (emitted : list gostring) (s' : bufio.Scanner) : Prop :=
  (emitted = Spec.tokens (stream s) /\
   bufio.err s' = Some (bufio.fin (bufio.r s)) /\
   short_tokens emitted) \/
  (exists t rest,
      Spec.tokens (stream s) = emitted ++ t :: rest /\
      bufio.err s' = Some ErrTooLong /\
      bufio.MaxScanTokenSize <= length t + 3 /\
      Forall (fun x => length x < bufio.MaxScanTokenSize) emitted).

(** *** A small web for the examples *)

(** One page that is served, one that is not found, one whose body
    breaks off while it is read, and no other host. *)
Definition example_web : Web := fun l =>
  if gostring_eqb l (str "ok-url") then
    inl (http.mkResponse 200 (page "a cat sat on a cat mat"))
  else if gostring_eqb l (str "404-url") then
    inl (http.mkResponse 404 (page "no cat here"))
  else if gostring_eqb l (str "cut-url") then
    inl (http.mkResponse 200 (bufio.mkReader (str "cat cat ca")
                                             (read_error "connection reset") [3] false))
  else inr (url_Error "no such host").

Definition example_links : list gostring :=
  [str "ok-url"; str "404-url"; str "unreachable-url"].

(** A word as long as the buffer of the scanner can get. *)
Definition long_word : list byte := repeat "a"%byte bufio.MaxScanTokenSize.

(** A word one byte longer. *)
Definition longer_word : list byte := repeat "a"%byte (S bufio.MaxScanTokenSize).

(** A continuation byte cannot start an encoding. *)
Definition cont (b : byte) : Prop := utf8.first (Byte.to_N b) = utf8.xx.

(* ================================================================== *)
(** * Proofs *)

Example count_cat :
  countOccurrences (str "cat") (page "a cat sat on a cat mat") = (2%N, None).
Proof. vm_compute. reflexivity. Qed.

Example tokens_example :
  Spec.tokens (str "  a cat	sat ") = [str "a"; str "cat"; str "sat"].
Proof. reflexivity. Qed.

(** ** Properties of the decoder *)

Arguments utf8.DecodeRune : simpl never.
Arguments bufio.isSpace : simpl never.

Section Decoder.

Import utf8.

Lemma first_size (p0 : N) (sz : nat) (lo hi : N) :
  first p0 = multi sz lo hi -> 2 <= sz <= 4 /\ (0x80 <= lo)%N /\ (hi <= 0xBF)%N.
Proof.
  unfold first, locb, hicb.
  repeat match goal with
         | |- context [if ?c then _ else _] => destruct c
         end; intros H; inversion H; subst; repeat split; lia.
Qed.

Lemma cont_range (b : byte) (lo hi : N) :
  (0x80 <= lo)%N -> (hi <= 0xBF)%N ->
  ((Byte.to_N b <? lo) || (hi <? Byte.to_N b))%N = false -> cont b.
Proof.
  intros Hlo Hhi H. apply orb_false_iff in H as [H1 H2].
  apply N.ltb_ge in H1, H2. unfold cont, first.
  destruct (N.ltb_spec (Byte.to_N b) 0x80); [lia|].
  destruct (N.ltb_spec (Byte.to_N b) 0xC2); [reflexivity|lia].
Qed.

Lemma DecodeRune_width (p : list byte) :
  p <> [] -> 1 <= snd (DecodeRune p) <= length p /\ snd (DecodeRune p) <= 4.
Proof.
  destruct p as [|c0 p1]; [congruence|intros _].
  unfold DecodeRune.
  destruct (first (Byte.to_N c0)) as [| |sz lo hi] eqn:E; simpl; try lia.
  destruct (first_size _ _ _ _ E) as [Hsz _].
  destruct (Nat.ltb_spec (S (length p1)) sz); simpl; [lia|].
  destruct p1 as [|c1 p2]; simpl in *; [lia|].
  destruct (_ || _)%bool; simpl; [lia|].
  destruct (Nat.leb_spec sz 2); simpl; [lia|].
  destruct p2 as [|c2 p3]; simpl in *; [lia|].
  destruct (_ || _)%bool; simpl; [lia|].
  destruct (Nat.leb_spec sz 3); simpl; [lia|].
  destruct p3 as [|c3 p4]; simpl in *; [lia|].
  destruct (_ || _)%bool; simpl; lia.
Qed.

Lemma DecodeRune_eq_width (b : byte) (p : list byte) (c : N) (w : nat) :
  DecodeRune (b :: p) = (c, w) -> 1 <= w <= S (length p).
Proof.
  intros E. pose proof (DecodeRune_width (b :: p)) as W.
  rewrite E in W. simpl in W. apply W. discriminate.
Qed.

(** Appending bytes changes the decoding of a slice only when the slice
    is a truncated encoding: fewer than four bytes, all but the first
    continuation bytes. *)
Lemma DecodeRune_app (p q : list byte) :
  p <> [] ->
  DecodeRune (p ++ q) = DecodeRune p \/
  (length p < 4 /\ DecodeRune p = (RuneError, 1) /\ Forall cont (tl p)).
Proof.
  destruct p as [|c0 p1]; [congruence|intros _].
  unfold DecodeRune; simpl app; cbv beta iota zeta.
  destruct (first (Byte.to_N c0)) as [| |sz lo hi] eqn:E;
    [left; reflexivity | left; reflexivity | ].
  destruct (first_size _ _ _ _ E) as (Hsz & Hlo & Hhi).
  assert (Hc : forall b, ((Byte.to_N b <? lo) || (hi <? Byte.to_N b))%N = false -> cont b)
    by (intros b; apply cont_range; assumption).
  assert (Hc' : forall b, ((Byte.to_N b <? locb) || (hicb <? Byte.to_N b))%N = false -> cont b)
    by (intros b; apply cont_range; unfold locb, hicb; lia).
  assert (Hs : sz = 2 \/ sz = 3 \/ sz = 4) by lia.
  destruct Hs as [-> | [-> | ->]];
    destruct p1 as [|c1 [|c2 [|c3 p4]]];
    destruct q as [|d1 [|d2 [|d3 q4]]]; simpl; auto;
    repeat match goal with
           | |- context [if (?a || ?b)%bool then _ else _] =>
             let C := fresh "C" in destruct (a || b)%bool eqn:C; auto
           end;
    right; (split; [lia|]); (split; [reflexivity|]);
    repeat constructor; auto.
Qed.

Lemma DecodeRune_app_space (p q : list byte) :
  p <> [] -> bufio.isSpace (fst (DecodeRune p)) = true ->
  DecodeRune (p ++ q) = DecodeRune p.
Proof.
  intros Hp Hs. destruct (DecodeRune_app p q Hp) as [H | (_ & H & _)]; auto.
  rewrite H in Hs. discriminate Hs.
Qed.

Lemma DecodeRune_app_long (p q : list byte) :
  4 <= length p -> DecodeRune (p ++ q) = DecodeRune p.
Proof.
  intros Hl. destruct p as [|c p']; [simpl in Hl; lia|].
  destruct (DecodeRune_app (c :: p') q) as [H | (H & _)]; auto; [congruence|lia].
Qed.

Lemma DecodeRune_cont (b : byte) (p : list byte) :
  cont b -> DecodeRune (b :: p) = (RuneError, 1).
Proof. unfold cont, DecodeRune. intros ->. reflexivity. Qed.

End Decoder.

(** ** The specification's tokens, unfolded one character at a time *)

Section Tokens.

Import utf8.

Lemma skipn_app_le (A : Type) (n : nat) (v m : list A) :
  n <= length v -> skipn n (v ++ m) = skipn n v ++ m.
Proof.
  intros H. rewrite skipn_app. replace (n - length v) with 0 by lia. reflexivity.
Qed.

Lemma firstn_app_le (A : Type) (n : nat) (v m : list A) :
  n <= length v -> firstn n (v ++ m) = firstn n v.
Proof.
  intros H. rewrite firstn_app. replace (n - length v) with 0 by lia.
  simpl. apply app_nil_r.
Qed.

Lemma split_ws_fuel (f1 f2 : nat) (s : list byte) (cur : gostring) :
  length s < f1 -> length s < f2 -> Spec.split_ws f1 s cur = Spec.split_ws f2 s cur.
Proof.
  revert f2 s cur. induction f1 as [|f1 IH]; intros f2 s cur H1 H2; [lia|].
  destruct f2 as [|f2]; [lia|]. simpl.
  destruct s as [|b s']; [reflexivity|].
  destruct (DecodeRune (b :: s')) as [c w] eqn:E.
  pose proof (DecodeRune_eq_width _ _ _ _ E) as Hw.
  assert (Hl : length (skipn w (b :: s')) < f1 /\ length (skipn w (b :: s')) < f2).
  { rewrite length_skipn. cbn [length] in *. lia. }
  destruct Hl as [Hl1 Hl2].
  destruct (bufio.isSpace c); [f_equal|]; apply IH; assumption.
Qed.

Lemma tokens_from_nil (cur : gostring) : tokens_from [] cur = Spec.emit cur.
Proof. reflexivity. Qed.

Lemma tokens_from_step (s : list byte) (cur : gostring) :
  s <> [] ->
  tokens_from s cur =
  if bufio.isSpace (fst (DecodeRune s))
  then Spec.emit cur ++ tokens_from (skipn (snd (DecodeRune s)) s) []
  else tokens_from (skipn (snd (DecodeRune s)) s)
                   (cur ++ firstn (snd (DecodeRune s)) s).
Proof.
  intros Hs. unfold tokens_from at 1. simpl.
  destruct s as [|b s']; [congruence|].
  destruct (DecodeRune (b :: s')) as [c w] eqn:E. simpl fst; simpl snd.
  pose proof (DecodeRune_eq_width _ _ _ _ E) as Hw.
  assert (Hl : length (skipn w (b :: s')) < length (b :: s')).
  { rewrite length_skipn. cbn [length] in *. lia. }
  unfold tokens_from.
  destruct (bufio.isSpace c); [f_equal|]; apply split_ws_fuel; lia.
Qed.

(** A token under way is always reported, at least as long as it is now. *)
Lemma tokens_from_cur (s : list byte) (cur : gostring) :
  cur <> [] ->
  exists t rest, tokens_from s cur = t :: rest /\ length cur <= length t.
Proof.
  remember (length s) as n eqn:Hn. revert s cur Hn.
  induction n as [n IH] using lt_wf_ind. intros s cur Hn Hc.
  destruct s as [|b s'].
  - rewrite tokens_from_nil. destruct cur; [congruence|].
    exists (b :: cur), []. split; [reflexivity|lia].
  - rewrite tokens_from_step by discriminate.
    destruct (DecodeRune (b :: s')) as [c w] eqn:E. simpl fst; simpl snd.
    pose proof (DecodeRune_eq_width _ _ _ _ E) as Hw.
    destruct (bufio.isSpace c).
    + destruct cur as [|c0 cur']; [congruence|]. simpl.
      eexists _, _. split; [reflexivity|simpl; lia].
    + destruct (IH (length (skipn w (b :: s')))) with
        (s := skipn w (b :: s')) (cur := cur ++ firstn w (b :: s'))
        as (t & rest & Ht & Hlen).
      * rewrite length_skipn. cbn [length] in *. lia.
      * reflexivity.
      * destruct cur; [congruence|discriminate].
      * exists t, rest. split; [assumption|].
        rewrite length_app in Hlen. lia.
Qed.

End Tokens.

(** ** The two loops of ScanWords against the specification's tokens *)

Section ScanWordsLoops.

Import utf8 bufio.

Lemma isSpace_RuneError : isSpace RuneError = false.
Proof. reflexivity. Qed.

Lemma firstn_add (A : Type) (a b : nat) (l : list A) :
  firstn (a + b) l = firstn a l ++ firstn b (skipn a l).
Proof.
  revert l. induction a as [|a IH]; intros l; [reflexivity|].
  destruct l as [|x l]; simpl.
  - now rewrite firstn_nil.
  - now rewrite IH.
Qed.

Lemma findSpace_cont (fuel : nat) :
  forall v i, Forall cont v -> findSpace fuel v i = None.
Proof.
  induction fuel as [|fuel IH]; intros v i Hv; [reflexivity|].
  destruct v as [|b v]; [reflexivity|].
  inversion Hv; subst. simpl.
  rewrite DecodeRune_cont by assumption. rewrite isSpace_RuneError.
  apply IH. assumption.
Qed.

Lemma skipSpaces_spec (fuel : nat) :
  forall v start, length v <= fuel ->
  start <= skipSpaces fuel v start /\
  skipSpaces fuel v start - start <= length v /\
  (forall more,
      tokens_from (v ++ more) [] =
      tokens_from (skipn (skipSpaces fuel v start - start) v ++ more) []) /\
  (skipn (skipSpaces fuel v start - start) v = [] \/
   isSpace (fst (DecodeRune (skipn (skipSpaces fuel v start - start) v))) = false).
Proof.
  induction fuel as [|fuel IH]; intros v start Hl.
  - destruct v; [|simpl in Hl; lia]. simpl. rewrite Nat.sub_diag.
    repeat split; auto with arith.
  - destruct v as [|b v'].
    { simpl. rewrite Nat.sub_diag. repeat split; auto with arith. }
    cbn [skipSpaces].
    destruct (DecodeRune (b :: v')) as [c w] eqn:E.
    pose proof (DecodeRune_eq_width _ _ _ _ E) as Hw.
    destruct (isSpace c) eqn:Sp.
    + destruct (IH (skipn w (b :: v')) (w + start)) as (H1 & H2 & H3 & H4).
      { rewrite length_skipn. cbn [length] in *. lia. }
      rewrite length_skipn in H2. cbn [length] in *.
      set (st := skipSpaces fuel (skipn w (b :: v')) (w + start)) in *.
      assert (Hst : st - start = (st - (w + start)) + w) by lia.
      rewrite Hst, <- skipn_skipn.
      repeat split; try lia; try assumption.
      intros more. rewrite <- H3.
      change ((b :: v') ++ more) with (b :: (v' ++ more)).
      rewrite tokens_from_step by discriminate.
      change (b :: (v' ++ more)) with ((b :: v') ++ more).
      rewrite DecodeRune_app_space; [|discriminate|rewrite E; assumption].
      rewrite E. cbn [fst snd]. rewrite Sp. cbn [Spec.emit]. rewrite app_nil_l.
      rewrite skipn_app_le by (cbn [length]; lia). reflexivity.
    + rewrite Nat.sub_diag. cbn [skipn].
      repeat split; auto with arith.
      right. rewrite E. assumption.
Qed.

Lemma findSpace_some (fuel : nat) :
  forall v i j w, findSpace fuel v i = Some (j, w) ->
  i <= j /\ 1 <= w /\ (j - i) + w <= length v /\
  (isSpace (fst (DecodeRune v)) = false -> i < j) /\
  forall more cur,
    tokens_from (v ++ more) cur =
    Spec.emit (cur ++ firstn (j - i) v) ++
    tokens_from (skipn ((j - i) + w) v ++ more) [].
Proof.
  induction fuel as [|fuel IH]; intros v i j w H; [discriminate|].
  destruct v as [|b v']; [discriminate|].
  cbn [findSpace] in H.
  destruct (DecodeRune (b :: v')) as [c w0] eqn:E.
  pose proof (DecodeRune_eq_width _ _ _ _ E) as Hw.
  destruct (isSpace c) eqn:Sp.
  - inversion H; subst j w. rewrite Nat.sub_diag. cbn [length].
    repeat split; try lia.
    + cbn [fst]. congruence.
    + intros more cur. cbn [firstn plus]. rewrite app_nil_r.
      change ((b :: v') ++ more) with (b :: (v' ++ more)).
      rewrite tokens_from_step by discriminate.
      change (b :: (v' ++ more)) with ((b :: v') ++ more).
      rewrite DecodeRune_app_space; [|discriminate|rewrite E; assumption].
      rewrite E. cbn [fst snd]. rewrite Sp.
      rewrite skipn_app_le by (cbn [length]; lia). reflexivity.
  - destruct (IH _ _ _ _ H) as (H1 & H2 & H3 & _ & H5).
    rewrite length_skipn in H3. cbn [length] in *.
    assert (Hji : j - i = w0 + (j - (w0 + i))) by lia.
    repeat split; try lia.
    intros more cur.
    destruct (DecodeRune_app (b :: v') more) as [St | (Hlen & Hdec & Hcont)];
      [discriminate| |].
    + change ((b :: v') ++ more) with (b :: (v' ++ more)).
      rewrite tokens_from_step by discriminate.
      change (b :: (v' ++ more)) with ((b :: v') ++ more).
      rewrite St, E. cbn [fst snd]. rewrite Sp.
      rewrite skipn_app_le, firstn_app_le by (cbn [length]; lia).
      rewrite H5. rewrite <- app_assoc.
      rewrite Hji at 1. rewrite firstn_add.
      rewrite skipn_skipn.
      replace (j - (w0 + i) + w + w0) with (j - i + w) by lia.
      reflexivity.
    + exfalso. rewrite Hdec in E. inversion E; subst c w0.
      cbn [skipn tl] in *. rewrite findSpace_cont in H by assumption.
      discriminate.
Qed.

Lemma findSpace_none (fuel : nat) :
  forall v i, length v <= fuel -> findSpace fuel v i = None ->
  (forall cur, tokens_from v cur = Spec.emit (cur ++ v)) /\
  (forall more cur, cur <> [] \/ 4 <= length v ->
     exists t rest, tokens_from (v ++ more) cur = t :: rest /\
                    length cur + length v <= length t + 3).
Proof.
  induction fuel as [|fuel IH]; intros v i Hl H.
  - destruct v; [|simpl in Hl; lia]. split.
    + intros cur. now rewrite app_nil_r.
    + intros more cur [Hc | Hc]; [|simpl in Hc; lia].
      destruct (tokens_from_cur more cur Hc) as (t & rest & Ht & Hlen).
      exists t, rest. split; [assumption|simpl; lia].
  - destruct v as [|b v'].
    { split.
      + intros cur. now rewrite app_nil_r.
      + intros more cur [Hc | Hc]; [|simpl in Hc; lia].
        destruct (tokens_from_cur more cur Hc) as (t & rest & Ht & Hlen).
        exists t, rest. split; [assumption|simpl; lia]. }
    cbn [findSpace] in H.
    destruct (DecodeRune (b :: v')) as [c w0] eqn:E.
    pose proof (DecodeRune_eq_width _ _ _ _ E) as Hw.
    destruct (isSpace c) eqn:Sp; [discriminate|].
    destruct (IH (skipn w0 (b :: v')) (w0 + i)) as [H1 H2]; [|assumption|].
    { rewrite length_skipn. cbn [length] in *. lia. }
    split.
    + intros cur. rewrite tokens_from_step by discriminate.
      rewrite E. cbn [fst snd]. rewrite Sp, H1, <- app_assoc, firstn_skipn.
      reflexivity.
    + intros more cur Hc.
      destruct (DecodeRune_app (b :: v') more) as [St | (Hlen & Hdec & Hcont)];
        [discriminate| |].
      * destruct (H2 more (cur ++ firstn w0 (b :: v'))) as (t & rest & Ht & Hlt).
        { left. destruct cur; [|discriminate].
          destruct w0; [lia|]. discriminate. }
        exists t, rest. split.
        -- change ((b :: v') ++ more) with (b :: (v' ++ more)).
           rewrite tokens_from_step by discriminate.
           change (b :: (v' ++ more)) with ((b :: v') ++ more).
           rewrite St, E. cbn [fst snd]. rewrite Sp.
           rewrite skipn_app_le, firstn_app_le by (cbn [length]; lia).
           assumption.
        -- rewrite length_app, length_firstn, length_skipn in Hlt.
           cbn [length] in *. lia.
      * destruct Hc as [Hc | Hc]; [|lia].
        destruct (tokens_from_cur ((b :: v') ++ more) cur Hc) as (t & rest & Ht & Hlt).
        exists t, rest. split; [assumption|lia].
Qed.

End ScanWordsLoops.

(** ** ScanWords against the specification's tokens *)

Section ScanWordsSpec.

Import utf8 bufio.

Lemma tokens_eq (s : list byte) : Spec.tokens s = tokens_from s [].
Proof. reflexivity. Qed.

(** A word returned by [ScanWords] is the first token of the stream,
    and the advance leads to the rest of the stream. *)
Lemma ScanWords_some (vis : list byte) (atEOF : bool) (adv : nat) (t : list byte) :
  ScanWords vis atEOF = (adv, Some t) ->
  1 <= adv <= length vis /\
  length t <= length vis /\ (atEOF = false -> length t < length vis) /\
  (length t < length vis \/ adv = length vis) /\
  forall more, (atEOF = true -> more = []) ->
    Spec.tokens (vis ++ more) = t :: Spec.tokens (skipn adv vis ++ more).
Proof.
  unfold ScanWords. intros H.
  destruct (skipSpaces_spec (length vis) vis 0 (le_n _)) as (_ & H2 & H3 & H4).
  rewrite Nat.sub_0_r in *.
  set (st := skipSpaces (length vis) vis 0) in *.
  destruct (findSpace (length vis) (skipn st vis) st) as [[j w]|] eqn:F.
  - inversion H; subst adv t; clear H.
    destruct (findSpace_some _ _ _ _ _ F) as (F1 & F2 & F3 & F4 & F5).
    rewrite length_skipn in F3.
    assert (Hj : st < j).
    { destruct H4 as [H4|H4]; [|auto].
      rewrite H4 in F. destruct (length vis); discriminate. }
    assert (Ht : length (firstn (j - st) (skipn st vis)) = j - st)
      by (rewrite length_firstn, length_skipn; lia).
    split; [lia|]. split; [lia|]. split; [lia|]. split; [left; lia|]. intros more _.
    rewrite !tokens_eq, H3, F5. cbn [app].
    rewrite skipn_skipn. replace (j - st + w + st) with (j + w) by lia.
    destruct (firstn (j - st) (skipn st vis)) eqn:T; [|reflexivity].
    apply (f_equal (@length byte)) in T.
    rewrite length_firstn, length_skipn in T. simpl in T. lia.
  - destruct atEOF; [|discriminate].
    destruct (length (skipn st vis) =? 0) eqn:L; [discriminate|].
    apply Nat.eqb_neq in L. cbn [andb negb] in H.
    inversion H; subst adv t; clear H.
    rewrite length_skipn in L. split; [lia|].
    split; [rewrite length_skipn; lia|]. split; [discriminate|].
    split; [right; reflexivity|].
    intros more Hm. rewrite (Hm eq_refl), !app_nil_r, skipn_all.
    rewrite !tokens_eq, tokens_from_nil.
    specialize (H3 []). rewrite !app_nil_r in H3. rewrite H3.
    destruct (findSpace_none (length vis) (skipn st vis) st) as [N1 _];
      [rewrite length_skipn; lia|assumption|].
    rewrite N1. cbn [app].
    destruct (skipn st vis) eqn:T; [|reflexivity].
    apply (f_equal (@length byte)) in T. rewrite length_skipn in T. simpl in T. lia.
Qed.

(** When [ScanWords] returns no word, it has skipped white space only;
    at the end of the input nothing is left, and before it a buffer
    that holds no word holds the beginning of a long token. *)
Lemma ScanWords_none (vis : list byte) (atEOF : bool) (adv : nat) :
  ScanWords vis atEOF = (adv, None) ->
  adv <= length vis /\
  (forall more, Spec.tokens (vis ++ more) = Spec.tokens (skipn adv vis ++ more)) /\
  (atEOF = true -> skipn adv vis = []) /\
  (forall more, 4 <= length (skipn adv vis) ->
     exists t rest, Spec.tokens (vis ++ more) = t :: rest /\
                    length (skipn adv vis) <= length t + 3).
Proof.
  unfold ScanWords. intros H.
  destruct (skipSpaces_spec (length vis) vis 0 (le_n _)) as (_ & H2 & H3 & H4).
  rewrite Nat.sub_0_r in *.
  set (st := skipSpaces (length vis) vis 0) in *.
  destruct (findSpace (length vis) (skipn st vis) st) as [[j w]|] eqn:F;
    [discriminate|].
  destruct (atEOF && negb (length (skipn st vis) =? 0)) eqn:C; [discriminate|].
  inversion H; subst adv; clear H.
  destruct (findSpace_none (length vis) (skipn st vis) st) as [_ N2];
    [rewrite length_skipn; lia|assumption|].
  repeat split.
  - assumption.
  - intros more. rewrite !tokens_eq. apply H3.
  - intros ->. cbn [andb] in C. apply negb_false_iff, Nat.eqb_eq in C.
    now apply length_zero_iff_nil.
  - intros more Hl. destruct (N2 more []) as (t & rest & Ht & Hlen); [now right|].
    exists t, rest. rewrite tokens_eq, H3. split; [assumption|].
    simpl in Hlen. assumption.
Qed.

End ScanWordsSpec.

(** ** One call of Scan *)

Section ScanSound.

Import bufio.

Arguments MaxScanTokenSize : simpl never.
Arguments startBufSize : simpl never.

Lemma startBufSize_pos : 0 < startBufSize.
Proof. apply Nat.ltb_lt. vm_compute. reflexivity. Qed.

Lemma MaxScanTokenSize_ge4 : 4 <= MaxScanTokenSize.
Proof. apply Nat.leb_le. vm_compute. reflexivity. Qed.

Lemma tryToken_spec (s : Scanner) :
  scanner_ok s ->
  match tryToken s with
  | inr (b, s') => b = true /\ scan_result s true s'
  | inl s1 =>
    r s1 = r s /\ err s1 = err s /\ scanner_ok s1 /\
    Spec.tokens (stream s) = Spec.tokens (stream s1) /\
    length (stream s1) <= length (stream s) /\
    (err s <> None -> data s1 = []) /\
    (4 <= length (data s1) ->
     exists t rest, Spec.tokens (stream s) = t :: rest /\
                    length (data s1) <= length t + 3)
  end.
Proof.
  intros [Hmax Hend Hlen Herr]. unfold tryToken.
  assert (Heof : negb (is_nil (err s)) = true -> pending (r s) = []).
  { destruct Herr as [-> | (_ & ?)]; [discriminate|auto]. }
  assert (Hok : forall adv tok,
             adv <= length (data s) ->
             scanner_ok (mkScanner (r s) (maxTokenSize s) tok (buf_len s)
                                   (adv + start s) (skipn adv (data s)) (err s))).
  { intros adv tok Hadv.
    assert (He : end_ (mkScanner (r s) (maxTokenSize s) tok (buf_len s)
                                 (adv + start s) (skipn adv (data s)) (err s)) = end_ s)
      by (unfold end_; cbn; rewrite length_skipn; lia).
    constructor; [assumption | rewrite He; assumption | assumption | ].
    exact Herr. }
  destruct (negb (length (data s) =? 0) || negb (is_nil (err s))) eqn:C.
  - destruct (ScanWords (data s) (negb (is_nil (err s)))) as [adv [t|]] eqn:SW.
    + destruct (ScanWords_some _ _ _ _ SW) as (Hadv & Ht1 & Ht2 & Ht3 & Htok).
      destruct (Nat.ltb_spec (length (data s)) adv); [lia|].
      split; [reflexivity|]. exists t. unfold stream in *. cbn.
      split; [reflexivity|]. split.
      { unfold end_ in *. split; [lia|].
        destruct (negb (is_nil (err s))) eqn:E.
        - destruct Ht3 as [Ht3|Ht3]; [left; lia|]. right.
          rewrite (Heof eq_refl), Ht3, skipn_all. reflexivity.
        - specialize (Ht2 eq_refl). left. lia. }
      split; [apply Htok; intros E; apply Heof; assumption|].
      split; [apply Hok; lia|]. split; [reflexivity|].
      rewrite !length_app, length_skipn. lia.
    + destruct (ScanWords_none _ _ _ SW) as (Hadv & Htok & Hnil & Hlong).
      destruct (Nat.ltb_spec (length (data s)) adv); [lia|].
      unfold stream in *. cbn.
      split; [reflexivity|]. split; [reflexivity|]. split; [apply Hok; lia|].
      split; [apply Htok|].
      split; [rewrite !length_app, length_skipn; lia|].
      split; [|apply Hlong].
      intros He. apply Hnil. destruct (err s); [reflexivity|congruence].
  - apply orb_false_iff in C as [C1 C2].
    apply negb_false_iff in C1, C2. apply Nat.eqb_eq in C1.
    split; [reflexivity|]. split; [reflexivity|].
    split; [constructor; assumption|]. split; [reflexivity|].
    split; [lia|]. split.
    + intros He. destruct (err s); [discriminate|congruence].
    + rewrite C1. lia.
Qed.

Lemma growBuffer_spec (s1 : Scanner) :
  scanner_ok s1 -> err s1 = None ->
  match growBuffer (shiftData s1) with
  | inr (b, s') =>
    b = false /\ err s' = Some ErrTooLong /\ length (data s1) = MaxScanTokenSize
  | inl s3 =>
    r s3 = r s1 /\ data s3 = data s1 /\ err s3 = None /\
    maxTokenSize s3 = MaxScanTokenSize /\
    end_ s3 < buf_len s3 /\ buf_len s3 <= maxTokenSize s3
  end.
Proof.
  intros [Hmax Hend Hlen Herr] He.
  pose proof startBufSize_pos as Hpos.
  unfold growBuffer, shiftData, setErr, end_ in *.
  destruct ((0 <? start s1) &&
            ((start s1 + length (data s1) =? buf_len s1) ||
             (Nat.div2 (buf_len s1) <? start s1))) eqn:C; cbn.
  - apply andb_true_iff in C as [C _]. apply Nat.ltb_lt in C.
    destruct (Nat.eqb_spec (length (data s1)) (buf_len s1)); [lia|].
    cbn. repeat split; auto; lia.
  - destruct (Nat.eqb_spec (start s1 + length (data s1)) (buf_len s1)) as [Hfull|].
    + assert (Hs : start s1 = 0).
      { destruct (Nat.ltb_spec 0 (start s1)); [|lia].
        cbn in C. discriminate. }
      destruct (Nat.leb_spec (maxTokenSize s1) (buf_len s1)).
      * rewrite He. cbn. repeat split. lia.
      * cbn. repeat split; auto.
        -- destruct (Nat.eqb_spec (buf_len s1 * 2) 0); lia.
        -- apply Nat.le_min_r.
    + repeat split; auto; lia.
Qed.

(** What a call of [Read] with room delivers, however the reader cuts
    the stream and whenever it reports the end. *)
Lemma Read_spec (rd : Reader) (room : nat) :
  1 <= room ->
  forall bytes e rd', Read rd room = (bytes, e, rd') ->
    bytes ++ pending rd' = pending rd /\ fin rd' = fin rd /\
    length bytes <= room /\
    (e = None \/ (e = Some (fin rd) /\ pending rd' = [])) /\
    length (pending rd') + (if is_nil e then 1 else 0) <= length (pending rd).
Proof.
  intros Hroom bytes e rd'. unfold Read.
  destruct (pending rd) as [|b p] eqn:P.
  - intros H. inversion H; subst. rewrite P. cbn. repeat split; auto; lia.
  - set (n := match chunks rd with
              | [] => room
              | k :: _ => Nat.min (S k) room
              end).
    assert (Hn : 1 <= n <= room) by (unfold n; destruct (chunks rd); lia).
    pose proof (length_skipn n (b :: p)) as L.
    pose proof (length_firstn n (b :: p)) as L'.
    pose proof (firstn_skipn n (b :: p)) as Hcut.
    intros H. inversion H; subst bytes e rd'; clear H.
    cbn [pending fin]. split; [exact Hcut|]. split; [reflexivity|].
    split; [lia|]. cbn [length] in L.
    destruct (skipn n (b :: p)) as [|c q].
    + destruct (early rd); cbn [is_nil length].
      * split; [right; split; reflexivity|lia].
      * split; [left; reflexivity|lia].
    + split; [left; reflexivity|]. cbn [is_nil length] in *. lia.
Qed.

Lemma readMore_spec (s3 : Scanner) :
  err s3 = None -> maxTokenSize s3 = MaxScanTokenSize ->
  end_ s3 < buf_len s3 -> buf_len s3 <= maxTokenSize s3 ->
  scanner_ok (readMore s3) /\ stream (readMore s3) = stream s3 /\
  fin (r (readMore s3)) = fin (r s3) /\ need (readMore s3) < need s3.
Proof.
  intros He Hmax Hend Hlen. unfold readMore.
  destruct (Read (r s3) (buf_len s3 - end_ s3)) as [[bytes e] rd] eqn:HR.
  destruct (Read_spec (r s3) (buf_len s3 - end_ s3) ltac:(lia) bytes e rd HR)
    as (Hcut & Hfin & Hroom & Herr & Hless).
  assert (Hend' : start s3 + length (data s3 ++ bytes) <= buf_len s3)
    by (unfold end_ in *; rewrite length_app; lia).
  unfold need, stream. rewrite He. cbn [is_nil].
  destruct e as [e'|]; unfold setErr; cbn [err]; cbn [r data err is_nil];
    cbn [is_nil] in Hless.
  - destruct Herr as [Herr|[Herr Hnil]]; [discriminate|]. inversion Herr; subst e'.
    split; [|split; [|split]].
    + constructor; cbn [maxTokenSize buf_len err r]; unfold end_;
        cbn [start data]; auto. right. rewrite Hfin. auto.
    + rewrite <- app_assoc, Hcut. reflexivity.
    + exact Hfin.
    + lia.
  - split; [|split; [|split]].
    + constructor; cbn [maxTokenSize buf_len err r]; unfold end_;
        cbn [start data]; auto.
    + rewrite <- app_assoc, Hcut. reflexivity.
    + exact Hfin.
    + lia.
Qed.

Lemma scan_result_transfer (s s5 : Scanner) (b : bool) (s' : Scanner) :
  Spec.tokens (stream s) = Spec.tokens (stream s5) ->
  fin (r s5) = fin (r s) ->
  length (stream s5) <= length (stream s) ->
  scan_result s5 b s' -> scan_result s b s'.
Proof.
  intros Ht Hf Hl. unfold scan_result. rewrite Ht, Hf.
  destruct b; [|auto].
  intros (t & H1 & H2 & H3 & H4 & H5 & H6). exists t.
  split; [assumption|]. split; [assumption|]. split; [assumption|].
  split; [assumption|]. split; [assumption|lia].
Qed.

(** A call of [Scan] with enough fuel returns, and what it returns
    follows the tokens of the specification. *)
Theorem Scan_sound (fuel : nat) :
  forall s, scanner_ok s -> need s <= fuel ->
  exists b s', Scan fuel s = Some (b, s') /\ scan_result s b s'.
Proof.
  induction fuel as [|fuel IH]; intros s Hok Hneed.
  - unfold need in Hneed. destruct (is_nil (err s)); lia.
  - cbn [Scan]. pose proof (tryToken_spec s Hok) as T.
    destruct (tryToken s) as [s1 | [b s']].
    + destruct T as (Hr & He & Hok1 & Htok & Hlen & Hnil & Hlong).
      destruct (err s1) as [e|] eqn:E1; cbn [is_nil negb].
      * exists false, (shutDown s1). split; [reflexivity|]. left.
        unfold shutDown. cbn [err]. split.
        -- destruct (ok_err _ Hok1) as [H|[H _]]; congruence.
        -- rewrite Htok. unfold stream. rewrite Hnil by congruence.
           destruct (ok_err _ Hok1) as [H|(_ & H)]; [congruence|].
           rewrite H. reflexivity.
      * pose proof (growBuffer_spec s1 Hok1 E1) as G.
        destruct (growBuffer (shiftData s1)) as [s3 | [b s']].
        -- destruct G as (G1 & G2 & G3 & G4 & G5 & G6).
           destruct (readMore_spec s3 G3 G4 G5 G6) as (R1 & R2 & R3 & R4).
           destruct (IH (readMore s3) R1) as (b & s' & HS & HR).
           { unfold need in *. rewrite G1, G3, Hr in R4. rewrite <- He in Hneed.
             cbn [is_nil] in *. lia. }
           exists b, s'. split; [assumption|].
           apply scan_result_transfer with (s5 := readMore s3); auto.
           ++ rewrite R2, Htok. unfold stream. now rewrite G1, G2.
           ++ rewrite R3, G1, Hr. reflexivity.
           ++ rewrite R2. unfold stream in *. now rewrite G1, G2.
        -- destruct G as (-> & G2 & G3).
           exists false, s'. split; [reflexivity|]. right. split; [assumption|].
           destruct Hlong as (t & rest & Ht & Hl).
           { rewrite G3. apply MaxScanTokenSize_ge4. }
           exists t, rest. split; [assumption|]. now rewrite <- G3.
    + destruct T as [-> T]. exists true, s'. split; [reflexivity|assumption].
Qed.

End ScanSound.

(** ** The loop of countOccurrences *)

Section CountLoop.

Import bufio.

Variable word : gostring.

Lemma gostring_eqb_eq (a b : gostring) : gostring_eqb a b = true <-> a = b.
Proof.
  unfold gostring_eqb. destruct (list_eq_dec Byte.byte_eq_dec a b); split;
    congruence.
Qed.

Lemma matches_nil : matches word [] = 0%N.
Proof. reflexivity. Qed.

Lemma matches_cons (t : gostring) (toks : list gostring) :
  matches word (t :: toks) =
  ((if gostring_eqb word t then 1 else 0) + matches word toks)%N.
Proof.
  unfold matches, gostring_eqb. cbn [count_occ].
  destruct (list_eq_dec Byte.byte_eq_dec t word) as [->|Hn].
  - destruct (list_eq_dec Byte.byte_eq_dec word word); [|congruence]. lia.
  - destruct (list_eq_dec Byte.byte_eq_dec word t); [congruence|]. lia.
Qed.

Lemma uint_max_pos : (0 < uint_max)%N.
Proof. reflexivity. Qed.

Lemma uint_incr_add (count m : N) :
  ((uint_incr count + m) mod uint_max = (count + (1 + m)) mod uint_max)%N.
Proof.
  unfold uint_incr. rewrite N.Div0.add_mod_idemp_l. f_equal. lia.
Qed.

(** The loop returns, having counted the tokens it was given, which
    are all the tokens of the stream unless one is too long. *)
Theorem countLoop_sound (fuel : nat) :
  forall s count,
    scanner_ok s -> length (stream s) + 2 <= fuel -> (count < uint_max)%N ->
    exists emitted s',
      countLoop fuel word s count =
      Some (((count + matches word emitted) mod uint_max)%N, s') /\
      stopped s emitted s'.
Proof.
  induction fuel as [|fuel IH]; intros s count Hok Hfuel Hc; [lia|].
  cbn [countLoop].
  destruct (Scan_sound (S fuel) s Hok) as (b & s1 & HS & HR).
  { unfold need, stream in *. rewrite length_app in Hfuel.
    destruct (is_nil (err s)); lia. }
  rewrite HS. destruct b.
  - destruct HR as (t & Ht & [Hle Hshort] & Htok & Hok1 & Hfin & Hlen).
    unfold Text. rewrite Ht.
    destruct (IH s1 (if gostring_eqb word t then uint_incr count else count) Hok1)
      as (emitted & s' & HL & HStop); [lia| |].
    { destruct (gostring_eqb word t); [|assumption].
      apply N.mod_lt. discriminate. }
    exists (t :: emitted), s'. split.
    + rewrite HL. f_equal. f_equal. rewrite matches_cons.
      destruct (gostring_eqb word t).
      * apply uint_incr_add.
      * reflexivity.
    + destruct HStop as [(He & Herr & Hall) | (t' & rest & Hsplit & Herr & Hlong & Hall)].
      * left. split; [rewrite Htok; congruence|]. split; [congruence|].
        cbn [short_tokens]. split; [assumption|]. split; [|assumption].
        destruct Hshort as [Hshort|Hnil]; [left; assumption|].
        right. rewrite He, Hnil. reflexivity.
      * right. exists t', rest. rewrite Htok, Hsplit.
        split; [reflexivity|]. split; [assumption|]. split; [assumption|].
        constructor; [|assumption].
        destruct Hshort as [Hshort|Hnil]; [assumption|].
        rewrite Hnil in Hsplit. destruct emitted; discriminate Hsplit.
  - exists [], s1. split.
    + rewrite matches_nil, N.add_0_r, N.mod_small by assumption. reflexivity.
    + destruct HR as [[Herr Htok] | (Herr & t & rest & Htok & Hlong)].
      * left. cbn [short_tokens]. auto.
      * right. exists t, rest. auto.
Qed.

End CountLoop.

(** ** countOccurrences *)

Lemma list_sum_cons (x : nat) (l : list nat) : list_sum (x :: l) = x + list_sum l.
Proof. reflexivity. Qed.

Section CountOccurrences.

Import bufio.

Lemma NewScanner_ok (rd : Reader) : scanner_ok (NewScanner rd).
Proof.
  constructor; [reflexivity | apply Nat.le_0_l | apply Nat.le_0_l | left; reflexivity].
Qed.

(** More fuel does not change what [Scan] and the loop return. *)
Lemma Scan_mono (f : nat) :
  forall s x, Scan f s = Some x -> Scan (S f) s = Some x.
Proof.
  induction f as [|f IH]; intros s x H; [discriminate|].
  cbn [Scan] in H. cbn [Scan].
  destruct (tryToken s) as [s1|res]; [|assumption].
  destruct (negb (is_nil (err s1))); [assumption|].
  destruct (growBuffer (shiftData s1)) as [s3|res]; [|assumption].
  apply IH. assumption.
Qed.

Lemma countLoop_mono (word : gostring) (f : nat) :
  forall s c x, countLoop f word s c = Some x -> countLoop (S f) word s c = Some x.
Proof.
  induction f as [|f IH]; intros s c x H; [discriminate|].
  cbn [countLoop] in H. cbn [countLoop].
  destruct (Scan (S f) s) as [[b s1]|] eqn:E; [|discriminate].
  rewrite (Scan_mono _ _ _ E).
  destruct b; [apply IH|]; assumption.
Qed.

Lemma countLoop_mono_le (word : gostring) (f f' : nat) (s : Scanner) (c : N)
      (x : N * Scanner) :
  f <= f' -> countLoop f word s c = Some x -> countLoop f' word s c = Some x.
Proof.
  induction 1 as [|f' _ IH]; [auto|]. intros H. apply countLoop_mono. auto.
Qed.

(** X1. countOccurrences always returns: its loops end within
    3 + (the length of the stream) turns, the fuel that the model gives
    them, and more fuel gives the same result. *)
Theorem countOccurrences_fuel_enough (word : gostring) (rd : Reader) (fuel : nat) :
  fuel_for rd <= fuel ->
  countOccurrences_fuel fuel word rd = Some (countOccurrences word rd).
Proof.
  intros Hf. unfold countOccurrences, countOccurrences_fuel.
  destruct (countLoop_sound word (fuel_for rd) (NewScanner rd) 0%N)
    as (emitted & s' & HL & _).
  - apply NewScanner_ok.
  - unfold fuel_for, stream. cbn [bufio.data bufio.r NewScanner app]. lia.
  - reflexivity.
  - rewrite (countLoop_mono_le _ _ _ _ _ _ Hf HL), HL.
    destruct (Err s'); reflexivity.
Qed.

Lemma short_tokens_all (l : list gostring) :
  short_tokens l -> Forall (fun t => length t <= MaxScanTokenSize) l.
Proof.
  induction l as [|t l IH]; intros H; [constructor|].
  destruct H as (H1 & _ & H3). constructor; auto.
Qed.

Lemma short_tokens_inner (a : list gostring) (t : gostring) (b : list gostring) :
  short_tokens (a ++ t :: b) ->
  length t <= MaxScanTokenSize /\ (length t < MaxScanTokenSize \/ b = []).
Proof.
  induction a as [|x a IH]; cbn [app short_tokens]; intros (H1 & H2 & H3).
  - auto.
  - auto.
Qed.

(** What [countOccurrences] returns on a reader of the stream [data]
    that ends with [e]: the count of the tokens scanned, which are all
    the tokens of the stream and then the error is that of the stream,
    or the tokens before one too long for the buffer and then the error
    is [ErrTooLong]. *)
Theorem countOccurrences_general (word : gostring) (rd : Reader) :
  exists emitted,
    fst (countOccurrences word rd) = (matches word emitted mod uint_max)%N /\
    Forall (fun t => length t <= MaxScanTokenSize) emitted /\
    ((emitted = Spec.tokens (pending rd) /\
      snd (countOccurrences word rd) = clean (fin rd) /\
      short_tokens emitted) \/
     (exists t rest,
         Spec.tokens (pending rd) = emitted ++ t :: rest /\
         snd (countOccurrences word rd) = Some ErrTooLong /\
         MaxScanTokenSize <= length t + 3 /\
         Forall (fun x => length x < MaxScanTokenSize) emitted)).
Proof.
  unfold countOccurrences, countOccurrences_fuel.
  destruct (countLoop_sound word (fuel_for rd) (NewScanner rd) 0%N)
    as (emitted & s' & HL & HS).
  - apply NewScanner_ok.
  - unfold fuel_for, stream. cbn [bufio.data bufio.r NewScanner app]. lia.
  - reflexivity.
  - rewrite HL. exists emitted. unfold stopped, stream, Err in *.
    cbn [bufio.data bufio.r NewScanner app] in HS.
    destruct HS as [(He & Herr & Hall) | (t & rest & Ht & Herr & Hlong & Hall)];
      rewrite Herr.
    + split; [destruct (fin rd); reflexivity|].
      split; [apply short_tokens_all; assumption|].
      left. split; [assumption|]. split; [destruct (fin rd); reflexivity|assumption].
    + split; [reflexivity|]. split.
      * eapply Forall_impl; [|exact Hall]. intros x Hx. cbv beta in Hx. lia.
      * right. exists t, rest. auto.
Qed.

(** On a stream whose tokens all have room in the buffer, the count is
    that of the specification, in 64 bits. *)
Theorem countOccurrences_fits (word : gostring) (rd : Reader) :
  fits (pending rd) ->
  countOccurrences word rd =
  ((N.of_nat (Spec.count word (pending rd)) mod uint_max)%N, clean (fin rd)).
Proof.
  intros Hfits.
  destruct (countOccurrences_general word rd) as (emitted & Hc & _ & H).
  destruct (countOccurrences word rd) as [c e].
  cbn [fst snd] in *.
  destruct H as [(-> & -> & _) | (t & rest & Ht & _ & Hlong & _)].
  - rewrite Hc. reflexivity.
  - exfalso. unfold fits in Hfits. rewrite Forall_forall in Hfits.
    specialize (Hfits t). rewrite Ht in Hfits.
    unfold utf8.UTFMax in Hfits.
    assert (length t + 4 <= MaxScanTokenSize)
      by (apply Hfits, in_or_app; right; left; reflexivity).
    lia.
Qed.

(** Two ways to cut a list at an element agree when the elements
    before each cut cannot be the element of the other cut. *)
Lemma app_cons_unique (A : Type) (P Q : A -> Prop) (a : list A) :
  forall (a' : list A) (x x' : A) (b b' : list A),
    a ++ x :: b = a' ++ x' :: b' ->
    Forall P a -> ~ P x' -> Forall Q a' -> ~ Q x ->
    a = a' /\ x = x' /\ b = b'.
Proof.
  induction a as [|y a IH]; intros [|y' a'] x x' b b' E Ha Hx' Ha' Hx;
    cbn [app] in E; inversion E; subst.
  - auto.
  - inversion Ha'; subst. contradiction.
  - inversion Ha; subst. contradiction.
  - inversion Ha; inversion Ha'; subst.
    destruct (IH a' x x' b b') as (-> & -> & ->); auto.
Qed.

(** The scan stops at the first token that is too long for the buffer,
    whatever the reader: a token longer than the buffer, or one that
    fills it and is not the last.  The tokens before it are counted and
    the error is [ErrTooLong]. *)
Theorem countOccurrences_too_long
        (word : gostring) (rd : Reader)
        (pre : list gostring) (t : gostring) (rest : list gostring) :
  Spec.tokens (pending rd) = pre ++ t :: rest ->
  Forall (fun x => length x + utf8.UTFMax <= MaxScanTokenSize) pre ->
  MaxScanTokenSize <= length t ->
  MaxScanTokenSize < length t \/ rest <> [] ->
  countOccurrences word rd =
  ((matches word pre mod uint_max)%N, Some ErrTooLong).
Proof.
  intros Htok Hpre Hlong Hlast.
  destruct (countOccurrences_general word rd) as (emitted & Hc & _ & H).
  destruct (countOccurrences word rd) as [c e].
  cbn [fst snd] in *.
  destruct H as [(-> & _ & Hall) | (t' & rest' & Ht' & -> & Hlong' & Hall)].
  - exfalso. rewrite Htok in Hall.
    destruct (short_tokens_inner _ _ _ Hall) as [H1 [H2|H2]].
    + lia.
    + destruct Hlast as [Hlast|Hlast]; [lia|contradiction].
  - rewrite Htok in Ht'.
    destruct (app_cons_unique _
                (fun x => length x + utf8.UTFMax <= MaxScanTokenSize)
                (fun x => length x < MaxScanTokenSize)
                pre emitted t t' rest rest' Ht') as (-> & _ & _); auto.
    + unfold utf8.UTFMax. lia.
    + lia.
    + subst c. reflexivity.
Qed.

(** A word that is no token of the stream is never counted. *)
Theorem countOccurrences_absent (word : gostring) (rd : Reader) :
  ~ In word (Spec.tokens (pending rd)) ->
  fst (countOccurrences word rd) = 0%N.
Proof.
  intros Hn.
  destruct (countOccurrences_general word rd) as (emitted & Hc & _ & H).
  rewrite Hc. unfold matches.
  rewrite (proj1 (count_occ_not_In _ emitted word)); [reflexivity|].
  intros Hin. apply Hn.
  destruct H as [(-> & _) | (t & rest & -> & _)]; [assumption|].
  apply in_or_app. left. assumption.
Qed.

(** *** The count is at most the length of the stream *)

Lemma tokens_from_size (s : list byte) :
  forall cur,
    list_sum (map (@length byte) (tokens_from s cur)) <= length cur + length s /\
    Forall (fun t => 1 <= length t) (tokens_from s cur).
Proof.
  remember (length s) as n eqn:Hn. revert s Hn.
  induction n as [n IH] using lt_wf_ind. intros s Hn cur.
  destruct s as [|b s'].
  - rewrite tokens_from_nil. destruct cur as [|c cur']; cbn.
    + split; [lia|constructor].
    + split; [lia|]. constructor; [cbn; lia|constructor].
  - rewrite tokens_from_step by discriminate.
    destruct (utf8.DecodeRune (b :: s')) as [c w] eqn:E. cbn [fst snd].
    pose proof (DecodeRune_eq_width _ _ _ _ E) as Hw.
    assert (Hl : length (skipn w (b :: s')) < n)
      by (rewrite length_skipn; cbn [length] in *; lia).
    pose proof (length_skipn w (b :: s')) as Hsk.
    pose proof (length_firstn w (b :: s')) as Hfi.
    cbn [length] in Hn, Hsk, Hfi.
    destruct (isSpace c).
    + destruct (IH _ Hl (skipn w (b :: s')) eq_refl []) as [H1 H2].
      cbn [length] in H1.
      destruct cur as [|c0 cur']; cbn [Spec.emit app map].
      * split; [cbn [length]; lia|assumption].
      * rewrite list_sum_cons. split; [cbn [length] in *; lia|].
        constructor; [cbn; lia|assumption].
    + destruct (IH _ Hl (skipn w (b :: s')) eq_refl (cur ++ firstn w (b :: s')))
        as [H1 H2].
      rewrite length_app in H1. split; [cbn [length]; lia|assumption].
Qed.

Lemma length_le_sum (l : list gostring) :
  Forall (fun t => 1 <= length t) l -> length l <= list_sum (map (@length byte) l).
Proof.
  induction 1 as [|t l Ht _ IH]; [reflexivity|].
  cbn [map length]. rewrite list_sum_cons. lia.
Qed.

Lemma count_unfold (word : gostring) (s : list byte) :
  Spec.count word s = count_occ (list_eq_dec byte_eq_dec) (Spec.tokens s) word.
Proof. reflexivity. Qed.

Lemma count_le_length (word : gostring) (s : list byte) :
  Spec.count word s <= length s.
Proof.
  unfold Spec.count. rewrite tokens_eq.
  destruct (tokens_from_size s []) as [H1 H2].
  pose proof (length_le_sum _ H2).
  pose proof (count_occ_bound (list_eq_dec byte_eq_dec) word (tokens_from s [])).
  cbn [length] in H1. unfold gostring in *. lia.
Qed.

(** For a stream shorter than 2^64 bytes the 64 bits of the counter
    hold the count itself. *)
Lemma count_in_uint (word : gostring) (s : list byte) :
  (N.of_nat (length s) < uint_max)%N ->
  (N.of_nat (Spec.count word s) mod uint_max = N.of_nat (Spec.count word s))%N.
Proof.
  intros H. apply N.mod_small. pose proof (count_le_length word s). lia.
Qed.

Lemma fitsb_fits (s : list byte) : fitsb s = true -> fits s.
Proof.
  unfold fitsb, fits. rewrite forallb_forall, Forall_forall.
  intros H t Ht. apply Nat.leb_le, H, Ht.
Qed.

(** *** Streams with a long token *)

Lemma tokens_from_letter_a (s : list byte) (cur : gostring) :
  tokens_from ("a"%byte :: s) cur = tokens_from s (cur ++ ["a"%byte]).
Proof. rewrite tokens_from_step by discriminate. reflexivity. Qed.

Lemma tokens_from_space (s : list byte) (cur : gostring) :
  tokens_from (" "%byte :: s) cur = Spec.emit cur ++ tokens_from s [].
Proof. rewrite tokens_from_step by discriminate. reflexivity. Qed.

Lemma tokens_from_repeat_a (n : nat) :
  forall s cur,
    tokens_from (repeat "a"%byte n ++ s) cur = tokens_from s (cur ++ repeat "a"%byte n).
Proof.
  induction n as [|n IH]; intros s cur.
  - cbn [repeat app]. now rewrite app_nil_r.
  - cbn [repeat app]. rewrite tokens_from_letter_a, IH, <- app_assoc. reflexivity.
Qed.

Lemma repeat_a_not_cat (n : nat) : repeat "a"%byte n <> str "cat".
Proof. destruct n; discriminate. Qed.

Lemma tokens_long_word (n : nat) :
  1 <= n -> Spec.tokens (repeat "a"%byte n) = [repeat "a"%byte n].
Proof.
  intros Hn. rewrite tokens_eq.
  rewrite <- (app_nil_r (repeat "a"%byte n)) at 1.
  rewrite tokens_from_repeat_a, tokens_from_nil. cbn [app].
  destruct n; [lia|reflexivity].
Qed.

Lemma tokens_long_word_then (n : nat) (rest : list byte) :
  1 <= n ->
  Spec.tokens (repeat "a"%byte n ++ " "%byte :: rest) =
  repeat "a"%byte n :: Spec.tokens rest.
Proof.
  intros Hn. rewrite !tokens_eq.
  rewrite tokens_from_repeat_a, tokens_from_space. cbn [app].
  destruct n; [lia|reflexivity].
Qed.

End CountOccurrences.

(** * The program: main and its goroutines *)

Lemma error_eq_dec (a b : error) : {a = b} + {a <> b}.
Proof. decide equality; apply string_dec. Qed.

Lemma Result_eq_dec (a b : Result) : {a = b} + {a <> b}.
Proof.
  decide equality.
  - decide equality. apply error_eq_dec.
  - apply N.eq_dec.
  - apply (list_eq_dec Byte.byte_eq_dec).
Qed.

Section Run.

Variable web : Web.
Variable word : gostring.
Variable numWorkers : Z.
Variable links : list gostring.

Local Abbreviation body := (wordsOnPage_body web word).
Local Abbreviation main_start := (main_start links).
Local Abbreviation main_step := (main_step numWorkers links).
Local Abbreviation worker_step := (worker_step web word).
Local Abbreviation step := (step web word numWorkers links).
Local Abbreviation steps := (steps web word numWorkers links).
Local Abbreviation reachable := (reachable web word numWorkers links).
Local Abbreviation all_results := (all_results web word links).
Local Abbreviation worker_results := (worker_results web word).
Local Abbreviation invariant := (invariant web word numWorkers links).
Local Abbreviation pc_ok := (pc_ok numWorkers links).
Local Abbreviation measure := (measure numWorkers links).
Local Abbreviation sched := (sched web word numWorkers links).
Local Abbreviation run := (run web word numWorkers links).
Local Abbreviation deadlocked := (deadlocked web word numWorkers links).
Local Abbreviation first_worker := (first_worker web word).

(** Each branch of the loop body sends one Result, for the link taken. *)
Lemma wordsOnPage_body_single (l : gostring) :
  exists res, body l = [res] /\ link res = l.
Proof.
  unfold wordsOnPage_body.
  destruct (web l) as [res|e]; [|eexists; split; reflexivity].
  destruct (negb (http.StatusCode res =? 200)%Z); [eexists; split; reflexivity|].
  destruct (countOccurrences word (http.Body res)). eexists; split; reflexivity.
Qed.

Lemma body_length (l : gostring) : length (body l) = 1.
Proof. destruct (wordsOnPage_body_single l) as (res & -> & _). reflexivity. Qed.

Lemma flat_map_body_length (ls : list gostring) :
  length (flat_map body ls) = length ls.
Proof.
  induction ls as [|l ls IH]; [reflexivity|].
  cbn [flat_map]. rewrite length_app, body_length, IH. reflexivity.
Qed.

(** Permutations of concatenations, by counting occurrences. *)
Ltac perm_count :=
  apply (Permutation_count_occ Result_eq_dec); intro;
  unfold all_results;
  cbn [pc link_chan result_chan workers stdout buf unsent set_buf push close];
  do 3 (repeat rewrite ?flat_map_app, ?count_occ_app, ?app_nil_r;
        cbn [flat_map worker_results count_occ]);
  lia.

Lemma count_occ_cons_app (x a : Result) (l : list Result) :
  count_occ Result_eq_dec (a :: l) x =
  count_occ Result_eq_dec [a] x + count_occ Result_eq_dec l x.
Proof. change (a :: l) with ([a] ++ l). apply count_occ_app. Qed.

Lemma invariant_start : invariant main_start.
Proof.
  constructor; cbn; auto.
  - rewrite app_nil_r. reflexivity.
  - repeat split; auto; lia.
Qed.

(** After [constructor] on [invariant]: the two capacities are kept;
    the Results, the place of [main] and the returned goroutines are
    left to the case at hand. *)
Ltac split_invariant :=
  constructor;
  [ | cbn; assumption | cbn; assumption
    | unfold pc_ok, spawned;
      cbn [pc link_chan result_chan workers stdout push close set_buf cap closed buf]
    | cbn [pc link_chan result_chan workers stdout push close set_buf cap closed buf] ].

Lemma invariant_main_step (s s' : State) :
  invariant s -> main_step s = Some s' -> invariant s'.
Proof.
  intros [Hres Hcl Hcr Hpc Hret] H.
  destruct s as [lc rc ws p out].
  unfold main_step, pc_ok, spawned in *.
  cbn [pc link_chan result_chan workers stdout] in *.
  destruct p as [i | [|l rest] | | i | ].
  - destruct Hpc as (Hi & Hw & Hc & Ho).
    destruct (Z.ltb_spec i (int_of_uint numWorkers));
      inversion H; subst s'; clear H; split_invariant.
    + eapply Permutation_trans; [|exact Hres]. perm_count.
    + rewrite length_app. cbn [length]. repeat split; auto; lia.
    + intros Hin. apply in_app_or in Hin as [Hin | [Hin | []]]; [auto|discriminate].
    + exact Hres.
    + repeat split; auto; lia.
    + exact Hret.
  - inversion H; subst s'; clear H. split_invariant.
    + exact Hres.
    + exact Hpc.
    + exact Hret.
  - destruct (has_room lc) eqn:R; [|discriminate].
    inversion H; subst s'; clear H. split_invariant.
    + eapply Permutation_trans; [|exact Hres]. perm_count.
    + exact Hpc.
    + intros Hin. destruct (Hret Hin) as [Hc _]. destruct Hpc as (_ & Hc' & _).
      congruence.
  - inversion H; subst s'; clear H. split_invariant.
    + exact Hres.
    + destruct Hpc as (Hs & _ & ->). auto.
    + intros Hin. destruct (Hret Hin) as [Hc _]. destruct Hpc as (_ & Hc' & _).
      congruence.
  - destruct Hpc as (Hs & Hc & Hi).
    destruct (Z.ltb_spec i (Z.of_nat (length links))).
    + destruct (buf rc) as [|res q] eqn:B; [discriminate|].
      inversion H; subst s'; clear H. split_invariant.
      * eapply Permutation_trans; [|exact Hres].
        apply (Permutation_count_occ Result_eq_dec); intro x.
        unfold all_results.
        cbn [pc link_chan result_chan workers stdout buf unsent set_buf].
        rewrite B. repeat rewrite ?count_occ_app.
        rewrite (count_occ_cons_app x res q). lia.
      * rewrite length_app. cbn [length]. repeat split; auto; lia.
      * exact Hret.
    + inversion H; subst s'; clear H. split_invariant.
      * exact Hres.
      * repeat split; auto; lia.
      * exact Hret.
  - discriminate.
Qed.

Lemma invariant_worker_step (s : State) (pre post : list Worker) (w w' : Worker)
      (lc : chan gostring) (rc : chan Result) :
  invariant s ->
  workers s = pre ++ w :: post ->
  worker_step w (link_chan s) (result_chan s) = Some (w', lc, rc) ->
  invariant (mkState lc rc (pre ++ w' :: post) (pc s) (stdout s)).
Proof.
  intros [Hres Hcl Hcr Hpc Hret] Hw H.
  destruct s as [lc0 rc0 ws p out].
  cbn [pc link_chan result_chan workers stdout] in *. subst ws.
  assert (Hlen : length (pre ++ w' :: post) = length (pre ++ w :: post))
    by (rewrite !length_app; reflexivity).
  assert (Hpc' : forall lc' rc', closed lc' = closed lc0 ->
                                 pc_ok (mkState lc' rc' (pre ++ w' :: post) p out)).
  { intros lc' rc' Hc. unfold pc_ok, spawned in *.
    cbn [pc link_chan result_chan workers stdout] in *.
    rewrite Hlen, Hc. exact Hpc. }
  assert (Hin : forall v, v <> w' -> In v (pre ++ w' :: post) -> In v (pre ++ w :: post)).
  { intros v Hv Hi. apply in_app_or in Hi as [Hi | [Hi | Hi]];
      [apply in_or_app; auto | congruence | apply in_or_app; right; right; auto]. }
  destruct w as [ | l | [|res o] | ]; cbn [worker_step] in H.
  - destruct (buf lc0) as [|l q] eqn:B.
    + destruct (closed lc0) eqn:C; [|discriminate].
      inversion H; subst w' lc rc; clear H.
      constructor; [ | assumption | assumption | apply Hpc'; (reflexivity || assumption) | ].
      * eapply Permutation_trans; [|exact Hres]. perm_count.
      * intros _. auto.
    + inversion H; subst w' lc rc; clear H.
      constructor; [ | assumption | assumption | apply Hpc'; (reflexivity || assumption) | ].
      * eapply Permutation_trans; [|exact Hres].
        apply (Permutation_count_occ Result_eq_dec); intro x.
        unfold all_results.
        cbn [pc link_chan result_chan workers stdout buf unsent set_buf].
        rewrite B. repeat rewrite ?flat_map_app, ?count_occ_app.
        cbn [flat_map worker_results].
        repeat rewrite ?flat_map_app, ?count_occ_app. cbn [count_occ]. lia.
      * intros Hi. destruct Hret as [Hc Hb].
        { apply Hin; [discriminate|assumption]. }
        rewrite Hb in B. discriminate.
  - inversion H; subst w' lc rc; clear H.
    constructor; [ | assumption | assumption | apply Hpc'; (reflexivity || assumption) | ].
    + eapply Permutation_trans; [|exact Hres]. perm_count.
    + intros Hi. apply Hret, Hin; [discriminate|assumption].
  - inversion H; subst w' lc rc; clear H.
    constructor; [ | assumption | assumption | apply Hpc'; (reflexivity || assumption) | ].
    + eapply Permutation_trans; [|exact Hres]. perm_count.
    + intros Hi. apply Hret, Hin; [discriminate|assumption].
  - destruct (has_room rc0) eqn:R; [|discriminate].
    inversion H; subst w' lc rc; clear H.
    constructor; [ | assumption | assumption | apply Hpc'; (reflexivity || assumption) | ].
    + eapply Permutation_trans; [|exact Hres].
      apply (Permutation_count_occ Result_eq_dec); intro x.
      unfold all_results.
      cbn [pc link_chan result_chan workers stdout buf unsent push].
      repeat rewrite ?flat_map_app, ?count_occ_app.
      cbn [flat_map worker_results].
      repeat rewrite ?flat_map_app, ?count_occ_app.
      rewrite (count_occ_cons_app x res o). cbn [count_occ]. lia.
    + intros Hi. apply Hret, Hin; [discriminate|assumption].
  - discriminate.
Qed.

Lemma invariant_step (s s' : State) : invariant s -> step s s' -> invariant s'.
Proof.
  intros Hinv Hstep. destruct Hstep as [s s' Hm | s pre post w w' lc rc _ Hw Hs].
  - eapply invariant_main_step; eassumption.
  - eapply invariant_worker_step; eassumption.
Qed.

Theorem invariant_reachable (s : State) : reachable s -> invariant s.
Proof.
  induction 1 as [|s' s'' _ IH Hstep].
  - apply invariant_start.
  - eapply invariant_step; eauto.
Qed.

(** *** Where the Results are *)

Lemma all_results_length (s : State) :
  invariant s ->
  length (unsent links (pc s)) + length (buf (link_chan s)) +
  length (flat_map worker_results (workers s)) +
  length (buf (result_chan s)) + length (stdout s) = length links.
Proof.
  intros Hinv. pose proof (Permutation_length (inv_results _ _ _ _ _ Hinv)) as H.
  unfold all_results in H.
  rewrite !length_app, !flat_map_body_length in H. lia.
Qed.

Lemma flat_map_nonempty (ws : list Worker) :
  0 < length (flat_map worker_results ws) ->
  exists pre w post, ws = pre ++ w :: post /\ worker_results w <> [].
Proof.
  induction ws as [|w ws IH]; cbn [flat_map]; [cbn; lia|].
  rewrite length_app. intros H.
  destruct (worker_results w) as [|res o] eqn:E.
  - destruct IH as (pre & w0 & post & -> & Hw); [cbn in H; lia|].
    exists (w :: pre), w0, post. split; [reflexivity|assumption].
  - exists [], w, ws. split; [reflexivity|]. rewrite E. discriminate.
Qed.

(** A goroutine that has a Result to send finds room in the channel,
    and so does [main] for a link. *)
Lemma result_chan_has_room (s : State) (pre post : list Worker)
      (res : Result) (out : list Result) :
  invariant s ->
  workers s = pre ++ Sending (res :: out) :: post ->
  has_room (result_chan s) = true.
Proof.
  intros Hinv Hw. pose proof (all_results_length s Hinv) as H.
  rewrite Hw, flat_map_app in H. cbn [flat_map worker_results] in H.
  rewrite !length_app in H. cbn [length] in H.
  unfold has_room. rewrite (inv_cap_results _ _ _ _ _ Hinv).
  apply Nat.ltb_lt. lia.
Qed.

Lemma link_chan_has_room (s : State) (l : gostring) (rest : list gostring) :
  invariant s -> pc s = Submitting (l :: rest) ->
  has_room (link_chan s) = true.
Proof.
  intros Hinv Hpc. pose proof (all_results_length s Hinv) as H.
  rewrite Hpc in H. cbn [unsent length] in H.
  unfold has_room. rewrite (inv_cap_links _ _ _ _ _ Hinv).
  apply Nat.ltb_lt. lia.
Qed.

(** *** Every step makes the measure smaller *)


Lemma measure_main_step (s s' : State) :
  main_step s = Some s' -> measure s' < measure s.
Proof.
  destruct s as [lc rc ws p out]. unfold main_step, measure.
  cbn [pc link_chan result_chan workers stdout].
  destruct p as [i | [|l rest] | | i | ].
  - destruct (Z.ltb_spec i (int_of_uint numWorkers));
      intros E; inversion E; subst s'; clear E;
        cbn [pc link_chan result_chan workers stdout pc_weight].
    + rewrite map_app, list_sum_app. cbn [map worker_weight].
      change (list_sum [1]) with 1. lia.
    + lia.
  - intros E; inversion E; subst s'; clear E.
    cbn [pc link_chan result_chan workers stdout pc_weight length]. lia.
  - destruct (has_room lc); intros E; inversion E; subst s'; clear E.
    cbn [pc link_chan result_chan workers stdout pc_weight length push buf].
    rewrite length_app. cbn [length]. lia.
  - intros E; inversion E; subst s'; clear E.
    cbn [pc link_chan result_chan workers stdout pc_weight close buf]. lia.
  - destruct (Z.ltb_spec i (Z.of_nat (length links))).
    + destruct (buf rc) as [|res q] eqn:B; intros E; inversion E; subst s'; clear E.
      cbn [pc link_chan result_chan workers stdout pc_weight set_buf buf length]. lia.
    + intros E; inversion E; subst s'; clear E.
      cbn [pc link_chan result_chan workers stdout pc_weight]. lia.
  - discriminate.
Qed.

Lemma measure_worker_step (s : State) (pre post : list Worker) (w w' : Worker)
      (lc : chan gostring) (rc : chan Result) :
  workers s = pre ++ w :: post ->
  worker_step w (link_chan s) (result_chan s) = Some (w', lc, rc) ->
  measure (mkState lc rc (pre ++ w' :: post) (pc s) (stdout s)) < measure s.
Proof.
  destruct s as [lc0 rc0 ws p out]. unfold measure.
  cbn [pc link_chan result_chan workers stdout]. intros -> H.
  rewrite !map_app, !list_sum_app. cbn [map]. rewrite !list_sum_cons.
  destruct w as [ | l | [|res o] | ]; cbn [worker_step] in H.
  - destruct (buf lc0) as [|l q] eqn:B.
    + destruct (closed lc0); inversion H; subst w' lc rc; clear H.
      rewrite B. cbn [worker_weight length]. lia.
    + inversion H; subst w' lc rc; clear H.
      cbn [worker_weight length set_buf buf]. lia.
  - inversion H; subst w' lc rc; clear H.
    cbn [worker_weight]. rewrite body_length. lia.
  - inversion H; subst w' lc rc; clear H. cbn [worker_weight length]. lia.
  - destruct (has_room rc0); inversion H; subst w' lc rc; clear H.
    cbn [worker_weight length push buf]. rewrite length_app. cbn [length]. lia.
  - discriminate.
Qed.

Theorem measure_step (s s' : State) : step s s' -> measure s' < measure s.
Proof.
  intros Hstep. destruct Hstep as [s s' Hm | s pre post w w' lc rc _ Hw Hs].
  - apply measure_main_step. assumption.
  - eapply measure_worker_step; eassumption.
Qed.

(** *** No deadlock when a goroutine is started *)

Theorem progress (s : State) :
  (1 <= int_of_uint numWorkers)%Z ->
  invariant s -> pc s <> Exited -> exists s', step s s'.
Proof.
  intros Hnw Hinv Hpc.
  pose proof (all_results_length s Hinv) as Hlen.
  pose proof (inv_pc _ _ _ _ _ Hinv) as Hok.
  pose proof (inv_cap_results _ _ _ _ _ Hinv) as Hcap.
  pose proof (inv_returned _ _ _ _ _ Hinv) as Hret.
  assert (Hmain : forall s', main_step s = Some s' -> exists s', step s s')
    by (intros s' H; exists s'; constructor; assumption).
  assert (Hwork : forall pre w post w' lc rc,
             workers s = pre ++ w :: post ->
             worker_step w (link_chan s) (result_chan s) = Some (w', lc, rc) ->
             exists s', step s s')
    by (intros pre w post w' lc rc H1 H2; eexists;
        eapply step_worker; eassumption).
  unfold pc_ok, spawned in Hok. unfold main_step in Hmain.
  destruct (pc s) as [i | [|l rest] | | i | ] eqn:P.
  - destruct (i <? int_of_uint numWorkers)%Z; eapply Hmain; reflexivity.
  - eapply Hmain; reflexivity.
  - rewrite (link_chan_has_room s l rest Hinv P) in Hmain.
    eapply Hmain; reflexivity.
  - eapply Hmain; reflexivity.
  - destruct Hok as (Hs & Hc & Hi). cbn [unsent length] in Hlen.
    destruct (Z.ltb_spec i (Z.of_nat (length links))) as [Hlt|Hge];
      [|eapply Hmain; reflexivity].
    destruct (buf (result_chan s)) as [|res q] eqn:B;
      [|eapply Hmain; reflexivity].
    assert (Hroom : has_room (result_chan s) = true).
    { unfold has_room. rewrite B, Hcap. apply Nat.ltb_lt. cbn [length]. lia. }
    cbn [length] in Hlen.
    destruct (buf (link_chan s)) as [|l q] eqn:BL.
    + destruct (flat_map_nonempty (workers s)) as (pre & w & post & Hw & Hne);
        [cbn [length] in Hlen; lia|].
      destruct w as [ | l | [|res o] | ]; cbn [worker_results] in Hne;
        try congruence.
      * eapply Hwork; [eassumption|reflexivity].
      * eapply Hwork; [eassumption|]. cbn [worker_step]. rewrite Hroom. reflexivity.
    + destruct (workers s) as [|w post] eqn:W; [cbn [length] in Hs; lia|].
      destruct w as [ | l' | [|res o] | ].
      * eapply (Hwork []); [reflexivity|]. cbn [worker_step]. rewrite BL. reflexivity.
      * eapply (Hwork []); [reflexivity|reflexivity].
      * eapply (Hwork []); [reflexivity|reflexivity].
      * eapply (Hwork []); [reflexivity|]. cbn [worker_step]. rewrite Hroom. reflexivity.
      * destruct Hret as [_ Hb]; [left; reflexivity|]. rewrite Hb in BL. discriminate.
  - congruence.
Qed.

(** *** Every run ends with main returning *)

Lemma steps_trans (a b c : State) : steps a b -> steps b c -> steps a c.
Proof.
  intros Hab Hbc. induction Hbc as [|c c' _ IH Hstep]; [assumption|].
  eapply steps_step; eassumption.
Qed.

Lemma steps_one (a b : State) : step a b -> steps a b.
Proof. intros H. eapply steps_step; [apply steps_refl|exact H]. Qed.

Theorem terminates (s : State) :
  (1 <= int_of_uint numWorkers)%Z ->
  invariant s -> exists s', steps s s' /\ pc s' = Exited.
Proof.
  intros Hnw. remember (measure s) as n eqn:Hn. revert s Hn.
  induction n as [n IH] using lt_wf_ind. intros s Hn Hinv.
  destruct (pc s) eqn:P;
    try (exists s; split; [apply steps_refl|assumption]);
    (destruct (progress s Hnw Hinv) as [s1 Hstep]; [congruence|];
     destruct (IH (measure s1)) with (s := s1) as (s' & Hsteps & Hex);
     [subst n; apply measure_step; assumption | reflexivity
      | eapply invariant_step; eassumption | ];
     exists s'; split; [|assumption];
     eapply steps_trans; [apply steps_one; eassumption|assumption]).
Qed.

(** A run takes at most as many steps as the measure of its start. *)
Theorem steps_bounded (s s' : State) :
  steps s s' -> measure s' <= measure s.
Proof.
  induction 1 as [|s' s'' _ IH Hstep]; [lia|].
  pose proof (measure_step _ _ Hstep). lia.
Qed.

(** *** What main has printed when it returns *)

Theorem exited_results (s : State) :
  invariant s -> pc s = Exited ->
  Permutation (stdout s) (flat_map body links) /\
  buf (link_chan s) = [] /\ buf (result_chan s) = [] /\
  flat_map worker_results (workers s) = [].
Proof.
  intros Hinv P.
  pose proof (all_results_length s Hinv) as Hlen.
  pose proof (inv_pc _ _ _ _ _ Hinv) as Hok.
  pose proof (inv_results _ _ _ _ _ Hinv) as Hres.
  unfold pc_ok in Hok. unfold all_results in Hres. rewrite P in *.
  destruct Hok as (_ & _ & Hout). cbn [unsent length flat_map] in *.
  assert (H1 : buf (link_chan s) = []) by (apply length_zero_iff_nil; lia).
  assert (H2 : buf (result_chan s) = []) by (apply length_zero_iff_nil; lia).
  assert (H3 : flat_map worker_results (workers s) = [])
    by (apply length_zero_iff_nil; lia).
  rewrite H1, H2, H3 in Hres. cbn [flat_map app] in Hres. auto.
Qed.

(** *** The schedule is one of the runs of the program *)

Lemma first_worker_sound (ws pre : list Worker) (lc : chan gostring) (rc : chan Result)
      (ws' : list Worker) (lc' : chan gostring) (rc' : chan Result) :
  first_worker pre ws lc rc = Some (ws', lc', rc') ->
  exists pre' w post w',
    pre ++ ws = pre' ++ w :: post /\ ws' = pre' ++ w' :: post /\
    worker_step w lc rc = Some (w', lc', rc').
Proof.
  revert pre. induction ws as [|w post IH]; intros pre H; [discriminate|].
  cbn [first_worker] in H.
  destruct (worker_step w lc rc) as [[[w1 lc1] rc1]|] eqn:E.
  - inversion H; subst. exists pre, w, post, w1. auto.
  - destruct (IH _ H) as (pre' & w0 & post' & w' & H1 & H2 & H3).
    exists pre', w0, post', w'. rewrite <- app_assoc in H1. auto.
Qed.

Lemma first_worker_none (ws pre : list Worker) (lc : chan gostring) (rc : chan Result) :
  first_worker pre ws lc rc = None ->
  forall w, In w ws -> worker_step w lc rc = None.
Proof.
  revert pre. induction ws as [|w post IH]; intros pre H v Hv; [destruct Hv|].
  cbn [first_worker] in H.
  destruct (worker_step w lc rc) as [[[w1 lc1] rc1]|] eqn:E; [discriminate|].
  destruct Hv as [<-|Hv]; [assumption|]. eapply IH; eassumption.
Qed.

Lemma sched_sound (s s' : State) : sched s = Some s' -> step s s'.
Proof.
  unfold sched. destruct (main_step s) as [s1|] eqn:M.
  - intros H; inversion H; subst. constructor. assumption.
  - destruct (first_worker [] (workers s) (link_chan s) (result_chan s))
      as [[[ws lc] rc]|] eqn:F.
    + destruct (first_worker_sound _ _ _ _ _ _ _ F)
        as (pre & w & post & w' & H1 & -> & H3).
      intros H.
      assert (Hpc : pc s <> Exited /\ s' = mkState lc rc (pre ++ w' :: post) (pc s) (stdout s)).
      { destruct (pc s); inversion H; split; congruence. }
      destruct Hpc as [Hpc ->]. eapply step_worker; eauto.
    + destruct (pc s); discriminate.
Qed.

Lemma sched_none (s : State) : sched s = None -> forall s', ~ step s s'.
Proof.
  unfold sched. intros H s' Hstep.
  destruct Hstep as [s s' Hm | s pre post w w' lc rc Hpc Hw Hs].
  - rewrite Hm in H. discriminate.
  - destruct (main_step s); [discriminate|].
    destruct (first_worker [] (workers s) (link_chan s) (result_chan s))
      as [[[ws lc1] rc1]|] eqn:F.
    + destruct (pc s); congruence.
    + rewrite (first_worker_none _ _ _ _ F w) in Hs; [discriminate|].
      rewrite Hw. apply in_or_app. right. left. reflexivity.
Qed.

Lemma run_steps (fuel : nat) : forall s, steps s (run fuel s).
Proof.
  induction fuel as [|fuel IH]; intros s; cbn [run]; [apply steps_refl|].
  destruct (sched s) as [s1|] eqn:E; [|apply steps_refl].
  eapply steps_trans; [apply steps_one, sched_sound; eassumption|apply IH].
Qed.

(** *** A goroutine never holds more than one Result *)



(** The links of the Results of the loop bodies are the links given. *)
Lemma map_link_bodies (ls : list gostring) :
  map link (flat_map body ls) = ls.
Proof.
  induction ls as [|l ls IH]; [reflexivity|].
  cbn [flat_map]. rewrite map_app, IH.
  destruct (wordsOnPage_body_single l) as (res & -> & <-). reflexivity.
Qed.

End Run.

(** ** Runs in which no goroutine is started *)

Section NoWorker.

Variable web : Web.
Variable word : gostring.
Variable numWorkers : Z.
Variable links : list gostring.

Local Abbreviation step := (step web word numWorkers links).
Local Abbreviation steps := (steps web word numWorkers links).
Local Abbreviation reachable := (reachable web word numWorkers links).
Local Abbreviation sched := (sched web word numWorkers links).
Local Abbreviation measure := (measure numWorkers links).
Local Abbreviation main_step := (main_step numWorkers links).

(** A [uint] from 2^63 on is negative as an [int]. *)
Lemma int_of_uint_huge :
  (2 ^ 63 <= numWorkers < 2 ^ 64)%Z ->
  int_of_uint numWorkers = (numWorkers - 2 ^ 64)%Z.
Proof.
  intros H. unfold int_of_uint.
  replace (numWorkers + 2 ^ 63)%Z with (numWorkers - 2 ^ 63 + 1 * 2 ^ 64)%Z by lia.
  rewrite Z.mod_add by lia. rewrite Z.mod_small by lia. lia.
Qed.

(** Without goroutines no Result is ever sent, and [main] waits for the
    first one for ever. *)
Lemma no_worker_no_exit :
  (int_of_uint numWorkers <= 0)%Z -> links <> [] ->
  forall s, reachable s ->
    workers s = [] /\ buf (result_chan s) = [] /\ stdout s = [] /\ pc s <> Exited.
Proof.
  intros Hnw Hlinks s Hr.
  induction Hr as [|s' s'' Hr IH Hstep].
  - cbn. repeat split; auto. discriminate.
  - pose proof (inv_pc _ _ _ _ _ (invariant_reachable _ _ _ _ _ Hr)) as Hok.
    destruct IH as (Hw & Hb & Ho & Hpc).
    destruct Hstep as [s s' Hm | s pre post w w' lc rc _ Hws Hs].
    + unfold main_step in Hm. unfold pc_ok in Hok.
      destruct (pc s) as [i | [|l rest] | | i | ] eqn:P.
      * destruct Hok as (Hi & _).
        destruct (Z.ltb_spec i (int_of_uint numWorkers)); [lia|].
        inversion Hm; subst s'. cbn. repeat split; auto. discriminate.
      * inversion Hm; subst s'. cbn. repeat split; auto. discriminate.
      * destruct (has_room (link_chan s)); inversion Hm; subst s'.
        cbn. repeat split; auto. discriminate.
      * inversion Hm; subst s'. cbn. repeat split; auto. discriminate.
      * destruct Hok as (_ & _ & Hi). rewrite Ho in Hi. cbn [length] in Hi.
        destruct (Z.ltb_spec i (Z.of_nat (length links))) as [Hlt|Hge].
        -- rewrite Hb in Hm. discriminate.
        -- destruct links; [congruence|]. cbn [length] in Hge. lia.
      * discriminate.
    + rewrite Hw in Hws. destruct pre; discriminate.
Qed.

(** Every run comes to a state from which no step leads on. *)
Lemma runs_stop (s : State) :
  exists s', steps s s' /\ forall s'', ~ step s' s''.
Proof.
  remember (measure s) as n eqn:Hn. revert s Hn.
  induction n as [n IH] using lt_wf_ind. intros s Hn.
  destruct (sched s) as [s1|] eqn:E.
  - pose proof (sched_sound _ _ _ _ _ _ E) as Hstep.
    destruct (IH (measure s1)) with (s := s1) as (s' & Hsteps & Hstop).
    + subst n. apply (measure_step _ _ _ _ _ _ Hstep).
    + reflexivity.
    + exists s'. split; [|assumption].
      eapply steps_trans; [apply steps_one; eassumption|assumption].
  - exists s. split; [apply steps_refl|]. apply sched_none. assumption.
Qed.

End NoWorker.

(** * The claims of the specification *)

(** C7. For a fixed batch of links and fixed outcomes of the fetches,
    the runs with one worker and the runs with eight workers all end,
    and any two of them have printed the same multiset of Results,
    possibly in another order. *)
Theorem worker_count_irrelevant
        (web : Web) (word : gostring) (links : list gostring) :
  (exists s1, reachable web word 1 links s1 /\ pc s1 = Exited) /\
  (exists s8, reachable web word 8 links s8 /\ pc s8 = Exited) /\
  (forall s1 s8,
      reachable web word 1 links s1 -> pc s1 = Exited ->
      reachable web word 8 links s8 -> pc s8 = Exited ->
      Permutation (stdout s1) (stdout s8)).
Proof.
  assert (H1 : (1 <= int_of_uint 1)%Z) by (vm_compute; discriminate).
  assert (H8 : (1 <= int_of_uint 8)%Z) by (vm_compute; discriminate).
  split; [|split].
  - apply (terminates web word 1 links (main_start links) H1), invariant_start.
  - apply (terminates web word 8 links (main_start links) H8), invariant_start.
  - intros s1 s8 Hr1 Hp1 Hr8 Hp8.
    destruct (exited_results _ _ _ _ s1 (invariant_reachable _ _ _ _ s1 Hr1) Hp1)
      as (P1 & _).
    destruct (exited_results _ _ _ _ s8 (invariant_reachable _ _ _ _ s8 Hr8) Hp8)
      as (P8 & _).
    eapply Permutation_trans; [exact P1|]. apply Permutation_sym. exact P8.
Qed.

Lemma worker_count_irrelevant_witness :
  let s1 := run example_web (str "cat") 1 example_links 40 (main_start example_links) in
  let s8 := run example_web (str "cat") 8 example_links 60 (main_start example_links) in
  Permutation (stdout s1) (stdout s8).
Proof.
  intros s1 s8.
  destruct (worker_count_irrelevant example_web (str "cat") example_links) as (_ & _ & H).
  apply H.
  - apply run_steps.
  - vm_compute. reflexivity.
  - apply run_steps.
  - vm_compute. reflexivity.
Defined.

(** C9. main makes both channels with capacity len(links).  The
    capacities never change, so the result channel has room for the
    Results of all the links; and in every state a run can get to, at
    whatever pace main reads the Results, a goroutine that has a Result
    to send finds room in the channel and sends it. *)
Theorem channels_sized_to_links
        (web : Web) (word : gostring) (numWorkers : Z) (links : list gostring) :
  cap (link_chan (main_start links)) = length links /\
  cap (result_chan (main_start links)) = length links /\
  forall s, reachable web word numWorkers links s ->
    cap (link_chan s) = length links /\
    cap (result_chan s) = length links /\
    length (buf (result_chan s)) <= cap (result_chan s) /\
    forall pre res out post,
      workers s = pre ++ Sending (res :: out) :: post ->
      length (buf (result_chan s)) < cap (result_chan s) /\
      worker_step web word (Sending (res :: out)) (link_chan s) (result_chan s) =
      Some (Sending out, link_chan s, push (result_chan s) res).
Proof.
  split; [reflexivity|]. split; [reflexivity|].
  intros s Hr. pose proof (invariant_reachable _ _ _ _ s Hr) as Hinv.
  pose proof (all_results_length _ _ _ _ s Hinv) as Hlen.
  split; [apply (inv_cap_links _ _ _ _ _ Hinv)|].
  split; [apply (inv_cap_results _ _ _ _ _ Hinv)|].
  split; [rewrite (inv_cap_results _ _ _ _ _ Hinv); lia|].
  intros pre res out post Hw.
  pose proof (result_chan_has_room _ _ _ _ s pre post res out Hinv Hw) as Hroom.
  split.
  - apply Nat.ltb_lt. exact Hroom.
  - cbn [worker_step]. rewrite Hroom. reflexivity.
Qed.

Lemma channels_sized_to_links_witness :
  let s := run example_web (str "cat") 1 example_links 9 (main_start example_links) in
  exists res,
    workers s = [Sending [res]] /\
    worker_step example_web (str "cat") (Sending [res]) (link_chan s) (result_chan s) =
    Some (Sending [], link_chan s, push (result_chan s) res).
Proof.
  intros s.
  destruct (channels_sized_to_links example_web (str "cat") 1 example_links)
    as (_ & _ & H).
  destruct (H s (run_steps _ _ _ _ 9 _)) as (_ & _ & _ & Hsend).
  exists (mkResult (str "ok-url") 2 None).
  assert (Hw : workers s = [] ++ Sending [mkResult (str "ok-url") 2 None] :: [])
    by (vm_compute; reflexivity).
  split; [exact Hw|]. exact (proj2 (Hsend _ _ _ _ Hw)).
Defined.



(** C5. For every link a goroutine processes: a failure of the
    transport of the GET gives Result{link, 0, that error}; a response
    with a status other than 200 gives Result{link, 0, "Did not receive
    200 OK"}; a response with status 200 gives the count and the error
    of countOccurrences on its body.  In each case the goroutine sends
    the Result and is back at the head of its loop; it returns only
    from there, when the links channel is closed and drained. *)
Theorem worker_outcomes (web : Web) (word l : gostring) :
  (forall e, web l = inr e ->
     wordsOnPage_body web word l = [mkResult l 0 (Some e)]) /\
  (forall res, web l = inl res -> http.StatusCode res <> 200%Z ->
     wordsOnPage_body web word l =
     [mkResult l 0 (Some (errors_New "Did not receive 200 OK"))]) /\
  (forall res, web l = inl res -> http.StatusCode res = 200%Z ->
     wordsOnPage_body web word l =
     [mkResult l (fst (countOccurrences word (http.Body res)))
                 (snd (countOccurrences word (http.Body res)))]) /\
  (forall lc rc,
      worker_step web word (Fetching l) lc rc =
      Some (Sending (wordsOnPage_body web word l), lc, rc)) /\
  (forall lc rc res out, has_room rc = true ->
      worker_step web word (Sending (res :: out)) lc rc =
      Some (Sending out, lc, push rc res)) /\
  (forall lc rc,
      worker_step web word (Sending []) lc rc = Some (Receiving, lc, rc)) /\
  (forall w lc rc lc' rc',
      worker_step web word w lc rc = Some (Returned, lc', rc') ->
      w = Receiving /\ buf lc = [] /\ closed lc = true).
Proof.
  unfold wordsOnPage_body. repeat split.
  - intros e ->. reflexivity.
  - intros res -> Hs. apply Z.eqb_neq in Hs. rewrite Hs. reflexivity.
  - intros res -> Hs. apply Z.eqb_eq in Hs. rewrite Hs. cbn [negb].
    destruct (countOccurrences word (http.Body res)). reflexivity.
  - intros lc rc res out Hr. cbn [worker_step]. rewrite Hr. reflexivity.
  - destruct w as [ | l0 | [|res o] | ]; cbn [worker_step] in H;
      try discriminate; try reflexivity.
    destruct (has_room rc); discriminate.
  - destruct w as [ | l0 | [|res o] | ]; cbn [worker_step] in H;
      try discriminate.
    + destruct (buf lc); [reflexivity|discriminate].
    + destruct (has_room rc); discriminate.
  - destruct w as [ | l0 | [|res o] | ]; cbn [worker_step] in H;
      try discriminate.
    + destruct (buf lc); [|discriminate]. destruct (closed lc); [reflexivity|discriminate].
    + destruct (has_room rc); discriminate.
Qed.

Lemma worker_outcomes_witness :
  wordsOnPage_body example_web (str "cat") (str "unreachable-url") =
  [mkResult (str "unreachable-url") 0 (Some (url_Error "no such host"))] /\
  wordsOnPage_body example_web (str "cat") (str "404-url") =
  [mkResult (str "404-url") 0 (Some (errors_New "Did not receive 200 OK"))] /\
  wordsOnPage_body example_web (str "cat") (str "ok-url") =
  [mkResult (str "ok-url") 2 None].
Proof.
  split; [|split].
  - apply (proj1 (worker_outcomes example_web (str "cat") (str "unreachable-url"))).
    vm_compute. reflexivity.
  - destruct (worker_outcomes example_web (str "cat") (str "404-url")) as (_ & H & _).
    apply (H (http.mkResponse 404 (page "no cat here"))).
    + vm_compute. reflexivity.
    + cbn. discriminate.
  - destruct (worker_outcomes example_web (str "cat") (str "ok-url")) as (_ & _ & H & _).
    rewrite (H (http.mkResponse 200 (page "a cat sat on a cat mat"))).
    + vm_compute. reflexivity.
    + vm_compute. reflexivity.
    + reflexivity.
Defined.

(** C2 (amended).  For every target word and every input stream whose
    tokens have each, with the character that ends it, room in the
    64 KiB buffer of the scanner (tokens of at most 65532 bytes),
    countOccurrences returns the number of whitespace-delimited tokens
    of the stream that are byte-for-byte equal to the target (for a
    stream of 2^64 bytes or more, that number in the 64 bits of a
    uint), where any run of white space is one separator and leading
    or trailing white space gives no empty token; with it comes the
    error of the stream, none at a clean end.
    In particular count("cat", "a cat sat on a cat mat") = 2 and
    count("Cat", "cat cat") = 0 (see the witness).
    On a stream with a token of more than 65536 bytes, the tokens
    before it being of at most 65532 bytes, the scan stops at that
    token: countOccurrences returns the number of matching tokens
    before it with the error ErrTooLong, and the tokens after it are
    not counted.  All this holds however the reader cuts the stream
    into reads and whether or not the end comes with the last bytes. *)
Theorem countOccurrences_counts_tokens
        (word : gostring) (s : list byte) (e : error)
        (chunks : list nat) (early : bool) :
  (fits s ->
   countOccurrences word (bufio.mkReader s e chunks early) =
   ((N.of_nat (Spec.count word s) mod uint_max)%N, clean e) /\
   ((N.of_nat (length s) < uint_max)%N ->
    countOccurrences word (bufio.mkReader s e chunks early) =
    (N.of_nat (Spec.count word s), clean e))) /\
  (forall pre t rest,
      Spec.tokens s = pre ++ t :: rest ->
      Forall (fun x => length x + utf8.UTFMax <= bufio.MaxScanTokenSize) pre ->
      bufio.MaxScanTokenSize < length t ->
      countOccurrences word (bufio.mkReader s e chunks early) =
      ((matches word pre mod uint_max)%N, Some ErrTooLong)).
Proof.
  split.
  - intros Hfits.
    pose proof (countOccurrences_fits word (bufio.mkReader s e chunks early) Hfits)
      as H.
    cbn [bufio.pending bufio.fin] in H.
    split; [exact H|].
    intros Hlen. rewrite H, count_in_uint by assumption. reflexivity.
  - intros pre t rest Htok Hpre Hlong.
    apply (countOccurrences_too_long word (bufio.mkReader s e chunks early)
                                     pre t rest Htok Hpre); [lia|left; exact Hlong].
Qed.

Lemma countOccurrences_counts_tokens_witness :
  countOccurrences (str "cat") (page "a cat sat on a cat mat") = (2%N, None) /\
  countOccurrences (str "Cat") (page "cat cat") = (0%N, None) /\
  countOccurrences (str "cat") (page "  cat	cat  cat  ") = (3%N, None).
Proof.
  assert (H : forall word text,
             fitsb (str text) = true ->
             countOccurrences word (page text) =
             ((N.of_nat (Spec.count word (str text)) mod uint_max)%N, None)).
  { intros word text Hf.
    exact (proj1 (proj1 (countOccurrences_counts_tokens word (str text) io_EOF [] true)
                        (fitsb_fits _ Hf))). }
  split; [|split]; (rewrite H; vm_compute; reflexivity).
Defined.

(** C2 as stated fails: on a stream that begins with a word of 64 KiB
    the scan stops with ErrTooLong, and the two tokens "cat" that
    follow are not counted. *)
Lemma long_token_stops_the_count :
  ~ (forall (word : gostring) (s : bufio.Reader),
        fst (countOccurrences word s) = N.of_nat (Spec.count word (bufio.pending s))).
Proof.
  intros H.
  specialize (H (str "cat")
                (bufio.mkReader (long_word ++ str " cat cat") io_EOF [] true)).
  assert (Htok : Spec.tokens (long_word ++ str " cat cat") =
                 [] ++ long_word :: [str "cat"; str "cat"]).
  { unfold long_word. change (str " cat cat") with (" "%byte :: str "cat cat").
    rewrite tokens_long_word_then by (pose proof MaxScanTokenSize_ge4; lia).
    reflexivity. }
  rewrite (countOccurrences_too_long
             (str "cat") (bufio.mkReader (long_word ++ str " cat cat") io_EOF [] true)
             [] long_word [str "cat"; str "cat"] Htok) in H;
    [ | constructor | unfold long_word; rewrite repeat_length; reflexivity
      | right; discriminate ].
  cbn [bufio.pending fst] in H. rewrite count_unfold, Htok in H.
  unfold long_word in H. cbn [app] in H.
  change (matches (str "cat") [] mod uint_max)%N with 0%N in H.
  cbn [count_occ] in H.
  destruct (list_eq_dec byte_eq_dec (repeat "a"%byte bufio.MaxScanTokenSize) (str "cat"))
    as [Heq|_]; [exact (repeat_a_not_cat _ Heq)|].
  destruct (list_eq_dec byte_eq_dec (str "cat") (str "cat")); [|congruence].
  discriminate H.
Qed.

(** C3 (amended).  For every target word, countOccurrences on a stream
    in which the target never occurs as a token, the empty stream
    among them, returns count 0.  It returns no error when the stream
    ends cleanly and all its tokens have room in the buffer of the
    scanner (tokens of at most 65532 bytes); when they have room and
    the read of the stream fails, it returns the error of the read;
    and when a token is longer than 65536 bytes, the tokens before it
    being of at most 65532 bytes, it returns ErrTooLong.  In every case
    the error is that of the stream (none at a clean end) or
    ErrTooLong. *)
Theorem absent_word_counts_zero
        (word : gostring) (s : list byte) (e : error)
        (chunks : list nat) (early : bool) :
  ~ In word (Spec.tokens s) ->
  fst (countOccurrences word (bufio.mkReader s e chunks early)) = 0%N /\
  (fits s ->
   countOccurrences word (bufio.mkReader s e chunks early) = (0%N, clean e)) /\
  (fits s ->
   countOccurrences word (bufio.mkReader s io_EOF chunks early) = (0%N, None)) /\
  countOccurrences word (bufio.mkReader [] io_EOF chunks early) = (0%N, None) /\
  (forall pre t rest,
      Spec.tokens s = pre ++ t :: rest ->
      Forall (fun x => length x + utf8.UTFMax <= bufio.MaxScanTokenSize) pre ->
      bufio.MaxScanTokenSize < length t ->
      countOccurrences word (bufio.mkReader s e chunks early) =
      (0%N, Some ErrTooLong)) /\
  (snd (countOccurrences word (bufio.mkReader s e chunks early)) = clean e \/
   snd (countOccurrences word (bufio.mkReader s e chunks early)) = Some ErrTooLong).
Proof.
  intros Hn.
  assert (H0 : forall e',
             fst (countOccurrences word (bufio.mkReader s e' chunks early)) = 0%N)
    by (intros e'; apply countOccurrences_absent; assumption).
  assert (Hf : forall e', fits s ->
             countOccurrences word (bufio.mkReader s e' chunks early) =
             (0%N, clean e')).
  { intros e' Hfits. specialize (H0 e').
    rewrite (countOccurrences_fits word (bufio.mkReader s e' chunks early) Hfits) in *.
    cbn [fst bufio.pending bufio.fin] in *. rewrite H0. reflexivity. }
  split; [apply H0|]. split; [apply Hf|]. split; [apply (Hf io_EOF)|].
  split; [|split].
  - rewrite countOccurrences_fits by constructor. reflexivity.
  - intros pre t rest Htok Hpre Hlong. specialize (H0 e).
    rewrite (countOccurrences_too_long word (bufio.mkReader s e chunks early)
                                       pre t rest Htok Hpre) in *;
      [| lia | left; exact Hlong | lia | left; exact Hlong].
    cbn [fst] in H0. rewrite H0. reflexivity.
  - destruct (countOccurrences_general word (bufio.mkReader s e chunks early))
      as (emitted & _ & _ & [(_ & H & _) | (t & rest & _ & H & _)]).
    + left. exact H.
    + right. exact H.
Qed.

Lemma absent_word_counts_zero_witness :
  countOccurrences (str "cat") (page "a dog sat on a mat") = (0%N, None) /\
  countOccurrences (str "cat") (page "") = (0%N, None).
Proof.
  assert (Hn : ~ In (str "cat") (Spec.tokens (str "a dog sat on a mat"))).
  { vm_compute. intros H. repeat (destruct H as [H|H]; [discriminate H|]). exact H. }
  destruct (absent_word_counts_zero (str "cat") (str "a dog sat on a mat") io_EOF
                                    [] true Hn)
    as (_ & _ & H & Hempty & _).
  split; [|exact Hempty].
  apply H. apply fitsb_fits. vm_compute. reflexivity.
Defined.

(** C3 as stated fails: the target "cat" never occurs in a stream that
    is one word of 64 KiB and one byte, and the stream ends cleanly,
    yet countOccurrences returns the error ErrTooLong with the
    count 0. *)
Lemma absent_word_can_have_error :
  ~ (forall (word : gostring) (s : bufio.Reader),
        ~ In word (Spec.tokens (bufio.pending s)) ->
        countOccurrences word s = (0%N, None)).
Proof.
  intros H.
  specialize (H (str "cat") (bufio.mkReader longer_word io_EOF [] true)).
  assert (Htok : Spec.tokens longer_word = [] ++ longer_word :: []).
  { unfold longer_word. apply tokens_long_word. lia. }
  rewrite (countOccurrences_too_long
             (str "cat") (bufio.mkReader longer_word io_EOF [] true)
             [] longer_word [] Htok) in H;
    [ | constructor | unfold longer_word; rewrite repeat_length; lia
      | left; unfold longer_word; rewrite repeat_length; lia ].
  cbn [bufio.pending] in H.
  assert (Hn : ~ In (str "cat") (Spec.tokens longer_word)).
  { rewrite Htok. unfold longer_word. intros [Heq|[]]. exact (repeat_a_not_cat _ Heq). }
  specialize (H Hn). discriminate H.
Qed.

(** C4.  If the read of the stream fails with an error after the bytes
    [s] (whose tokens have room in the buffer, so that the scan gets to
    the failing read), countOccurrences stops and returns that error
    together with the count of the matching tokens among the bytes read
    before the failure; and a goroutine that got this stream as the
    body of a 200 response sends Result{link, that count, that error}.
    This holds however the reader cuts the stream into reads and
    whether or not the error comes with the last bytes. *)
Theorem scan_error_partial_count
        (web : Web) (word l : gostring) (s : list byte) (e : error)
        (chunks : list nat) (early : bool) :
  e <> io_EOF -> fits s ->
  countOccurrences word (bufio.mkReader s e chunks early) =
  ((N.of_nat (Spec.count word s) mod uint_max)%N, Some e) /\
  ((N.of_nat (length s) < uint_max)%N ->
   countOccurrences word (bufio.mkReader s e chunks early) =
   (N.of_nat (Spec.count word s), Some e)) /\
  (web l = inl (http.mkResponse 200 (bufio.mkReader s e chunks early)) ->
   wordsOnPage_body web word l =
   [mkResult l (N.of_nat (Spec.count word s) mod uint_max)%N (Some e)]).
Proof.
  intros He Hfits.
  assert (Hc : countOccurrences word (bufio.mkReader s e chunks early) =
               ((N.of_nat (Spec.count word s) mod uint_max)%N, Some e)).
  { rewrite (countOccurrences_fits word (bufio.mkReader s e chunks early) Hfits).
    cbn [bufio.pending bufio.fin].
    destruct e; try reflexivity. congruence. }
  split; [exact Hc|]. split.
  - intros Hlen. rewrite Hc, count_in_uint by assumption. reflexivity.
  - intros Hweb. unfold wordsOnPage_body. rewrite Hweb.
    cbn [http.StatusCode http.Body Z.eqb negb Pos.eqb]. rewrite Hc. reflexivity.
Qed.

Lemma scan_error_partial_count_witness :
  countOccurrences (str "cat")
                   (bufio.mkReader (str "cat cat ca") (read_error "connection reset")
                                   [3] false) =
  (2%N, Some (read_error "connection reset")) /\
  wordsOnPage_body example_web (str "cat") (str "cut-url") =
  [mkResult (str "cut-url") 2 (Some (read_error "connection reset"))].
Proof.
  assert (He : read_error "connection reset" <> io_EOF) by discriminate.
  assert (Hf : fits (str "cat cat ca")) by (apply fitsb_fits; vm_compute; reflexivity).
  destruct (scan_error_partial_count example_web (str "cat") (str "cut-url")
                                     (str "cat cat ca") (read_error "connection reset")
                                     [3] false He Hf) as (H1 & _ & H2).
  split.
  - rewrite H1. vm_compute. reflexivity.
  - rewrite H2; [vm_compute; reflexivity|]. vm_compute. reflexivity.
Defined.

(** C6 (amended).  For every Result a goroutine produces for a link:
    if the GET failed, or the status was not 200, its count is 0 and
    its error is set; if the status was 200, its count and error are
    those of countOccurrences on the body, so that with a scan error
    comes the partial count; and if its error is absent, the status was
    200 and its count is the exact number of matching tokens of the
    page (in the 64 bits of a uint). *)
Theorem result_count_and_error (web : Web) (word l : gostring) (res : Result) :
  In res (wordsOnPage_body web word l) ->
  (forall e, web l = inr e -> count res = 0%N /\ err res = Some e) /\
  (forall r, web l = inl r -> http.StatusCode r <> 200%Z ->
     count res = 0%N /\ err res = Some (errors_New "Did not receive 200 OK")) /\
  (forall r, web l = inl r -> http.StatusCode r = 200%Z ->
     (count res, err res) = countOccurrences word (http.Body r)) /\
  (err res = None ->
   exists r, web l = inl r /\ http.StatusCode r = 200%Z /\
             count res =
             (N.of_nat (Spec.count word (bufio.pending (http.Body r))) mod uint_max)%N).
Proof.
  unfold wordsOnPage_body. intros Hin.
  destruct (web l) as [r|e] eqn:W.
  - destruct (Z.eqb_spec (http.StatusCode r) 200) as [Hs|Hs]; cbn [negb] in Hin.
    + destruct (countOccurrences word (http.Body r)) as [c oe] eqn:C.
      destruct Hin as [<-|[]]. cbn [count err].
      split; [intros e' E; discriminate E|].
      split; [intros r' E Hs'; inversion E; subst r'; congruence|].
      split; [intros r' E _; inversion E; subst r'; congruence|].
      intros ->. exists r. split; [reflexivity|]. split; [assumption|].
      destruct (countOccurrences_general word (http.Body r))
        as (emitted & Hc & _ & Hcase).
      rewrite C in Hc, Hcase. cbn [fst snd] in *.
      destruct Hcase as [(-> & _) | (t & rest & _ & Herr & _)]; [|discriminate].
      exact Hc.
    + destruct Hin as [<-|[]]. cbn [count err].
      split; [intros e' E; discriminate E|].
      split; [intros r' E Hs'; split; reflexivity|].
      split; [intros r' E Hs'; inversion E; subst r'; congruence|].
      intros E; discriminate E.
  - destruct Hin as [<-|[]]. cbn [count err].
    split; [intros e' E; inversion E; subst e'; split; reflexivity|].
    split; [intros r' E; discriminate E|].
    split; [intros r' E; discriminate E|].
    intros E; discriminate E.
Qed.

Lemma result_count_and_error_witness :
  exists r, example_web (str "ok-url") = inl r /\ http.StatusCode r = 200%Z /\
            2%N = (N.of_nat (Spec.count (str "cat") (bufio.pending (http.Body r)))
                   mod uint_max)%N.
Proof.
  assert (Hin : In (mkResult (str "ok-url") 2 None)
                   (wordsOnPage_body example_web (str "cat") (str "ok-url")))
    by (vm_compute; left; reflexivity).
  destruct (result_count_and_error example_web (str "cat") (str "ok-url")
                                   (mkResult (str "ok-url") 2 None) Hin)
    as (_ & _ & _ & H).
  exact (H eq_refl).
Defined.

(** C6 as stated fails: a Result whose error is set can have a count
    that is not 0.  The body of "cut-url" breaks off after two tokens
    "cat": the Result carries the read error and the count 2. *)
Lemma scan_error_keeps_count :
  ~ (forall (web : Web) (word l : gostring) (res : Result),
        In res (wordsOnPage_body web word l) ->
        err res <> None -> count res = 0%N).
Proof.
  intros H.
  specialize (H example_web (str "cat") (str "cut-url")
                (mkResult (str "cut-url") 2 (Some (read_error "connection reset")))).
  assert (Hin : In (mkResult (str "cut-url") 2 (Some (read_error "connection reset")))
                   (wordsOnPage_body example_web (str "cat") (str "cut-url")))
    by (vm_compute; left; reflexivity).
  specialize (H Hin). cbn [err count] in H.
  assert (Hne : Some (read_error "connection reset") <> None) by discriminate.
  specialize (H Hne). discriminate H.
Qed.

(** C8 (the code at the input where it fails).  parseCLI accepts every
    worker count from 1 on, but main starts int(numWorkers) goroutines:
    for a count from 2^63 on the conversion is negative, and no
    goroutine is started.  Then, for every non-empty list of links,
    main never returns: every run comes to a deadlock, main waiting on
    the result channel for a Result that nobody sends. *)
Theorem huge_worker_count_deadlocks
        (web : Web) (word : gostring) (numWorkers : Z) (links : list gostring) :
  (2 ^ 63 <= numWorkers < 2 ^ 64)%Z -> links <> [] ->
  (forall s, reachable web word numWorkers links s -> pc s <> Exited) /\
  (exists s, reachable web word numWorkers links s /\
             deadlocked web word numWorkers links s).
Proof.
  intros Hnw Hlinks.
  assert (Hint : (int_of_uint numWorkers <= 0)%Z)
    by (rewrite int_of_uint_huge by assumption; lia).
  assert (Hno : forall s, reachable web word numWorkers links s -> pc s <> Exited).
  { intros s Hr.
    apply (no_worker_no_exit web word numWorkers links Hint Hlinks s Hr). }
  split; [exact Hno|].
  destruct (runs_stop web word numWorkers links (main_start links))
    as (s & Hsteps & Hstop).
  exists s. split; [exact Hsteps|]. split; [apply Hno; exact Hsteps|exact Hstop].
Qed.

Lemma huge_worker_count_deadlocks_witness :
  exists s,
    reachable example_web (str "cat") (2 ^ 63) [str "ok-url"] s /\
    deadlocked example_web (str "cat") (2 ^ 63) [str "ok-url"] s.
Proof.
  assert (Hnw : (2 ^ 63 <= 2 ^ 63 < 2 ^ 64)%Z) by lia.
  assert (Hl : [str "ok-url"] <> []) by discriminate.
  exact (proj2 (huge_worker_count_deadlocks example_web (str "cat") (2 ^ 63)
                                           [str "ok-url"] Hnw Hl)).
Defined.

(** The state of the deadlock: main is at its first read of the result
    channel, the link is still queued, and there is no goroutine. *)
Example huge_worker_count_run :
  let s := run example_web (str "cat") (2 ^ 63) [str "ok-url"] 10
               (main_start [str "ok-url"]) in
  pc s = Collecting 0 /\ workers s = [] /\
  buf (link_chan s) = [str "ok-url"] /\ buf (result_chan s) = [] /\
  sched example_web (str "cat") (2 ^ 63) [str "ok-url"] s = None.
Proof. vm_compute. repeat split. Qed.

(** * Further properties of the code *)

(** ** White space and ASCII *)

Section Ascii.

Import utf8 bufio.

Lemma DecodeRune_ascii (b : byte) (s : list byte) :
  (Byte.to_N b < 0x80)%N -> DecodeRune (b :: s) = (Byte.to_N b, 1).
Proof.
  intros H. unfold DecodeRune, first.
  destruct (N.ltb_spec (Byte.to_N b) 0x80); [reflexivity|lia].
Qed.

Lemma isSpace_ascii (b : byte) :
  (Byte.to_N b < 0x80)%N -> isSpace (Byte.to_N b) = ascii_space b.
Proof.
  intros H. unfold isSpace, ascii_space.
  destruct (N.leb_spec (Byte.to_N b) 0xFF); [|lia].
  destruct (N.eqb_spec (Byte.to_N b) 0x85); [lia|].
  destruct (N.eqb_spec (Byte.to_N b) 0xA0); [lia|].
  rewrite !orb_false_r.
  destruct (N.eqb_spec (Byte.to_N b) 0x20); [reflexivity|].
  destruct (N.eqb_spec (Byte.to_N b) 0x09);
    [destruct (N.leb_spec 9 (Byte.to_N b)), (N.leb_spec (Byte.to_N b) 13); try lia; reflexivity|].
  destruct (N.eqb_spec (Byte.to_N b) 0x0A);
    [destruct (N.leb_spec 9 (Byte.to_N b)), (N.leb_spec (Byte.to_N b) 13); try lia; reflexivity|].
  destruct (N.eqb_spec (Byte.to_N b) 0x0B);
    [destruct (N.leb_spec 9 (Byte.to_N b)), (N.leb_spec (Byte.to_N b) 13); try lia; reflexivity|].
  destruct (N.eqb_spec (Byte.to_N b) 0x0C);
    [destruct (N.leb_spec 9 (Byte.to_N b)), (N.leb_spec (Byte.to_N b) 13); try lia; reflexivity|].
  destruct (N.eqb_spec (Byte.to_N b) 0x0D);
    [destruct (N.leb_spec 9 (Byte.to_N b)), (N.leb_spec (Byte.to_N b) 13); try lia; reflexivity|].
  destruct (N.leb_spec 9 (Byte.to_N b)), (N.leb_spec (Byte.to_N b) 13); try reflexivity; lia.
Qed.

Lemma ascii_space_low (b : byte) : ascii_space b = true -> (Byte.to_N b < 0x80)%N.
Proof.
  unfold ascii_space. intros H. apply orb_true_iff in H as [H|H].
  - apply N.eqb_eq in H. lia.
  - apply andb_true_iff in H as [_ H]. apply N.leb_le in H. lia.
Qed.

(** One step of the specification's walk at an ASCII byte. *)
Lemma tokens_from_ascii (b : byte) (s : list byte) (cur : gostring) :
  (Byte.to_N b < 0x80)%N ->
  tokens_from (b :: s) cur =
  if ascii_space b then Spec.emit cur ++ tokens_from s []
  else tokens_from s (cur ++ [b]).
Proof.
  intros H. rewrite tokens_from_step by discriminate.
  rewrite DecodeRune_ascii by assumption. cbn [fst snd skipn firstn].
  rewrite isSpace_ascii by assumption. reflexivity.
Qed.

Lemma tokens_ascii_fields (s : list byte) :
  Forall (fun b => (Byte.to_N b < 0x80)%N) s ->
  forall cur, tokens_from s cur = ascii_fields s cur.
Proof.
  induction 1 as [|b s Hb _ IH]; intros cur; [reflexivity|].
  rewrite tokens_from_ascii by assumption. cbn [ascii_fields].
  destruct (ascii_space b); rewrite IH; reflexivity.
Qed.

Lemma first_high (p0 : N) : first p0 <> as_ -> (0x80 <= p0)%N.
Proof.
  unfold first. destruct (N.ltb_spec p0 0x80); [congruence|lia].
Qed.

Lemma range_high (b : byte) (lo hi : N) :
  (0x80 <= lo)%N ->
  ((Byte.to_N b <? lo) || (hi <? Byte.to_N b))%N = false -> (0x80 <= Byte.to_N b)%N.
Proof.
  intros Hlo H. apply orb_false_iff in H as [H _]. apply N.ltb_ge in H. lia.
Qed.

(** The bytes that a decoding consumes are a single ASCII byte, which
    is the rune, or bytes from 0x80 on. *)
Lemma DecodeRune_consumed (b : byte) (s : list byte) (c : N) (w : nat) :
  DecodeRune (b :: s) = (c, w) ->
  ((Byte.to_N b < 0x80)%N /\ w = 1 /\ c = Byte.to_N b) \/
  Forall (fun x => (0x80 <= Byte.to_N x)%N) (firstn w (b :: s)).
Proof.
  unfold DecodeRune.
  destruct (first (Byte.to_N b)) as [| |sz lo hi] eqn:E.
  - intros H; inversion H; subst. left.
    unfold first in E. destruct (N.ltb_spec (Byte.to_N b) 0x80); [auto|].
    repeat match type of E with
           | (if ?c then _ else _) = _ => destruct c; try discriminate E
           end.
  - intros H; inversion H; subst. right. cbn [firstn]. constructor; [|constructor].
    apply first_high. congruence.
  - destruct (first_size _ _ _ _ E) as (Hsz & Hlo & Hhi).
    assert (Hb : (0x80 <= Byte.to_N b)%N) by (apply first_high; congruence).
    assert (Hc : forall x, ((Byte.to_N x <? lo) || (hi <? Byte.to_N x))%N = false ->
                           (0x80 <= Byte.to_N x)%N)
      by (intros x; apply range_high; assumption).
    assert (Hc' : forall x, ((Byte.to_N x <? locb) || (hicb <? Byte.to_N x))%N = false ->
                            (0x80 <= Byte.to_N x)%N)
      by (intros x; apply range_high; unfold locb; lia).
    assert (Hs : sz = 2 \/ sz = 3 \/ sz = 4) by lia.
    destruct Hs as [-> | [-> | ->]];
      destruct s as [|c1 [|c2 [|c3 s4]]]; cbn [length Nat.ltb Nat.leb];
        repeat match goal with
               | |- context [if (?a || ?b)%bool then _ else _] =>
                 let C := fresh "C" in destruct (a || b)%bool eqn:C
               end;
        intros H; inversion H; subst; right; cbn [firstn];
          repeat constructor; auto.
Qed.

(** A decoding is not changed by what follows an ASCII byte. *)
Lemma DecodeRune_app_ascii (p : list byte) (y : byte) (q : list byte) :
  p <> [] -> (Byte.to_N y < 0x80)%N ->
  DecodeRune (p ++ y :: q) = DecodeRune p.
Proof.
  intros Hp Hy. destruct p as [|c0 p1]; [congruence|].
  unfold DecodeRune; simpl app; cbv beta iota zeta.
  destruct (first (Byte.to_N c0)) as [| |sz lo hi] eqn:E; [reflexivity|reflexivity|].
  destruct (first_size _ _ _ _ E) as (Hsz & Hlo & Hhi).
  assert (Hy1 : ((Byte.to_N y <? lo) || (hi <? Byte.to_N y))%N = true).
  { apply orb_true_iff. left. apply N.ltb_lt. lia. }
  assert (Hy2 : ((Byte.to_N y <? locb) || (hicb <? Byte.to_N y))%N = true).
  { apply orb_true_iff. left. apply N.ltb_lt. unfold locb. lia. }
  assert (Hs : sz = 2 \/ sz = 3 \/ sz = 4) by lia.
  destruct Hs as [-> | [-> | ->]];
    destruct p1 as [|c1 [|c2 [|c3 p4]]]; simpl;
      repeat (rewrite ?Hy1, ?Hy2;
              match goal with
              | |- context [if ?c then _ else _] => destruct c eqn:?
              end);
      rewrite ?Hy1, ?Hy2; reflexivity.
Qed.

(** No token is empty, and no token holds an ASCII white space byte. *)
Lemma tokens_from_no_space (s : list byte) :
  forall cur,
    Forall (fun b => ascii_space b = false) cur ->
    Forall (fun t => t <> [] /\ Forall (fun b => ascii_space b = false) t)
           (tokens_from s cur).
Proof.
  remember (length s) as n eqn:Hn. revert s Hn.
  induction n as [n IH] using lt_wf_ind. intros s Hn cur Hcur.
  assert (Hemit : Forall (fun t => t <> [] /\ Forall (fun b => ascii_space b = false) t)
                         (Spec.emit cur)).
  { destruct cur as [|c0 cur']; cbn; constructor; [|constructor].
    split; [discriminate|assumption]. }
  destruct s as [|b s'].
  - rewrite tokens_from_nil. assumption.
  - rewrite tokens_from_step by discriminate.
    destruct (DecodeRune (b :: s')) as [c w] eqn:E. cbn [fst snd].
    pose proof (DecodeRune_eq_width _ _ _ _ E) as Hw.
    assert (Hl : length (skipn w (b :: s')) < n)
      by (rewrite length_skipn; cbn [length] in *; lia).
    destruct (isSpace c) eqn:Sp.
    + apply Forall_app. split; [assumption|].
      apply (IH _ Hl _ eq_refl). constructor.
    + apply (IH _ Hl _ eq_refl). apply Forall_app. split; [assumption|].
      destruct (DecodeRune_consumed _ _ _ _ E) as [(Hb & -> & ->) | Hhigh].
      * cbn [firstn]. constructor; [|constructor].
        rewrite <- isSpace_ascii by assumption. assumption.
      * eapply Forall_impl; [|exact Hhigh]. cbn beta. intros x Hx.
        destruct (ascii_space x) eqn:A; [|reflexivity].
        apply ascii_space_low in A. lia.
Qed.

(** The tokens of two streams joined by an ASCII white space byte are
    the tokens of the first, then those of the second. *)
Lemma tokens_from_join (sep : byte) (b : list byte) (a : list byte) :
  ascii_space sep = true ->
  forall cur,
    tokens_from (a ++ sep :: b) cur = tokens_from a cur ++ tokens_from b [].
Proof.
  intros Hsep. pose proof (ascii_space_low _ Hsep) as Hlow.
  remember (length a) as n eqn:Hn. revert a Hn.
  induction n as [n IH] using lt_wf_ind. intros a Hn cur.
  destruct a as [|x a'].
  - cbn [app]. rewrite tokens_from_ascii by assumption. rewrite Hsep.
    reflexivity.
  - rewrite (tokens_from_step (x :: a')) by discriminate.
    change ((x :: a') ++ sep :: b) with (x :: (a' ++ sep :: b)).
    rewrite tokens_from_step by discriminate.
    change (x :: (a' ++ sep :: b)) with ((x :: a') ++ sep :: b).
    rewrite DecodeRune_app_ascii by (assumption || discriminate).
    destruct (DecodeRune (x :: a')) as [c w] eqn:E. cbn [fst snd].
    pose proof (DecodeRune_eq_width _ _ _ _ E) as Hw.
    assert (Hl : length (skipn w (x :: a')) < n)
      by (rewrite length_skipn; cbn [length] in *; lia).
    rewrite skipn_app_le, firstn_app_le by (cbn [length]; lia).
    rewrite !(IH _ Hl _ eq_refl).
    destruct (isSpace c); [rewrite app_assoc|]; reflexivity.
Qed.

End Ascii.

(** ** countOccurrences: what it returns and when it stops *)

Lemma countOccurrences_fuel_enough_witness :
  countOccurrences_fuel 40 (str "cat") (page "a cat sat on a cat mat") =
  Some (2%N, None).
Proof.
  rewrite countOccurrences_fuel_enough.
  - vm_compute. reflexivity.
  - apply Nat.leb_le. vm_compute. reflexivity.
Defined.

(** X2. The scan stops at the first token that is too long for the
    64 KiB buffer of the scanner, a token of more than 65536 bytes or
    one of 65536 bytes that is followed by another token:
    countOccurrences returns the count of the tokens before it and the
    error ErrTooLong, whatever follows the long token, however the
    stream ends and however the reader cuts it into reads; the tokens
    after it are not looked at. *)
Theorem scan_stops_at_long_token
        (word : gostring) (data : list byte) (e : error)
        (chunks : list nat) (early : bool)
        (pre : list gostring) (t : gostring) (rest : list gostring) :
  Spec.tokens data = pre ++ t :: rest ->
  Forall (fun x => length x + utf8.UTFMax <= bufio.MaxScanTokenSize) pre ->
  bufio.MaxScanTokenSize <= length t ->
  bufio.MaxScanTokenSize < length t \/ rest <> [] ->
  countOccurrences word (bufio.mkReader data e chunks early) =
  ((matches word pre mod uint_max)%N, Some ErrTooLong) /\
  (N.to_nat (fst (countOccurrences word (bufio.mkReader data e chunks early)))
   <= length pre).
Proof.
  intros Htok Hpre Hlong Hlast.
  rewrite (countOccurrences_too_long word (bufio.mkReader data e chunks early)
                                     pre t rest Htok Hpre Hlong Hlast).
  split; [reflexivity|]. cbn [fst].
  pose proof (count_occ_bound (list_eq_dec byte_eq_dec) word pre) as Hb.
  pose proof (N.Div0.mod_le (matches word pre) uint_max) as Hm.
  unfold matches, gostring in *. lia.
Qed.

Lemma scan_stops_at_long_token_witness :
  countOccurrences (str "cat")
                   (bufio.mkReader (long_word ++ " "%byte :: str "cat cat")
                                   (read_error "connection reset") [0; 7] true) =
  (0%N, Some ErrTooLong).
Proof.
  assert (Htok : Spec.tokens (long_word ++ " "%byte :: str "cat cat") =
                 [] ++ long_word :: [str "cat"; str "cat"]).
  { unfold long_word.
    rewrite tokens_long_word_then by (pose proof MaxScanTokenSize_ge4; lia).
    reflexivity. }
  assert (Hlen : bufio.MaxScanTokenSize <= length long_word)
    by (unfold long_word; rewrite repeat_length; reflexivity).
  assert (Hlast : bufio.MaxScanTokenSize < length long_word \/
                  [str "cat"; str "cat"] <> []) by (right; discriminate).
  exact (proj1 (scan_stops_at_long_token
                  (str "cat") (long_word ++ " "%byte :: str "cat cat")
                  (read_error "connection reset") [0; 7] true
                  [] long_word [str "cat"; str "cat"]
                  Htok (Forall_nil _) Hlen Hlast)).
Defined.

(** X3. The error countOccurrences returns is the error of the stream
    (none at io.EOF) or ErrTooLong, never another one.  A failure of
    the read is never swallowed: if the stream ends with an error,
    countOccurrences returns an error; and when it returns no error,
    the stream has ended cleanly and the count is that of all its
    tokens. *)
Theorem countOccurrences_errors
        (word : gostring) (data : list byte) (e : error)
        (chunks : list nat) (early : bool) :
  (snd (countOccurrences word (bufio.mkReader data e chunks early)) = clean e \/
   snd (countOccurrences word (bufio.mkReader data e chunks early)) =
   Some ErrTooLong) /\
  (e <> io_EOF ->
   snd (countOccurrences word (bufio.mkReader data e chunks early)) <> None) /\
  (snd (countOccurrences word (bufio.mkReader data e chunks early)) = None ->
   e = io_EOF /\
   fst (countOccurrences word (bufio.mkReader data e chunks early)) =
   (N.of_nat (Spec.count word data) mod uint_max)%N).
Proof.
  destruct (countOccurrences_general word (bufio.mkReader data e chunks early))
    as (emitted & Hc & _ & H).
  destruct (countOccurrences word (bufio.mkReader data e chunks early)) as [c r].
  cbn [fst snd bufio.pending bufio.fin] in *.
  destruct H as [(-> & -> & _) | (t & rest & _ & -> & _)].
  - split; [left; reflexivity|]. split.
    + intros He. destruct e; try discriminate. congruence.
    + intros He. split; [destruct e; try discriminate He; reflexivity|exact Hc].
  - split; [right; reflexivity|]. split; [discriminate|discriminate].
Qed.

Lemma countOccurrences_errors_witness :
  snd (countOccurrences (str "cat")
                        (bufio.mkReader (str "a dog") (read_error "timeout") [] true))
  <> None.
Proof.
  apply (proj1 (proj2 (countOccurrences_errors (str "cat") (str "a dog")
                                               (read_error "timeout") [] true))).
  discriminate.
Defined.

(** X4. No token is empty and no token holds an ASCII white space
    byte: a target word that is empty, or that contains a space, a tab
    or a line break, is never counted, on any stream. *)
Theorem target_with_space_never_counted
        (word : gostring) (data : list byte) (e : error)
        (chunks : list nat) (early : bool) :
  word = [] \/ Exists (fun b => ascii_space b = true) word ->
  fst (countOccurrences word (bufio.mkReader data e chunks early)) = 0%N.
Proof.
  intros Hw. apply countOccurrences_absent. cbn [bufio.pending]. intros Hin.
  pose proof (tokens_from_no_space data [] (Forall_nil _)) as Hall.
  rewrite <- tokens_eq in Hall. rewrite Forall_forall in Hall.
  destruct (Hall word Hin) as [Hne Hns].
  destruct Hw as [->|Hex]; [congruence|].
  rewrite Exists_exists in Hex. destruct Hex as (b & Hb & Hsp).
  rewrite Forall_forall in Hns. rewrite (Hns b Hb) in Hsp. discriminate.
Qed.

Lemma target_with_space_never_counted_witness :
  fst (countOccurrences (str "a cat") (page "a cat sat on a cat mat")) = 0%N /\
  fst (countOccurrences [] (page "a cat sat on a cat mat")) = 0%N.
Proof.
  split; apply target_with_space_never_counted.
  - right. apply Exists_cons_tl, Exists_cons_hd. reflexivity.
  - left. reflexivity.
Defined.

(** X5. On a stream of ASCII bytes countOccurrences splits at the six
    ASCII white space bytes only: when the words have room in the
    buffer, it counts the maximal runs of other bytes that are equal to
    the target. *)
Theorem countOccurrences_ascii
        (word : gostring) (data : list byte) (e : error)
        (chunks : list nat) (early : bool) :
  Forall (fun b => (Byte.to_N b < 0x80)%N) data ->
  Forall (fun t => length t + utf8.UTFMax <= bufio.MaxScanTokenSize)
         (ascii_fields data []) ->
  countOccurrences word (bufio.mkReader data e chunks early) =
  ((matches word (ascii_fields data []) mod uint_max)%N, clean e).
Proof.
  intros Hascii Hfit.
  pose proof (tokens_ascii_fields data Hascii []) as Htok.
  rewrite <- tokens_eq in Htok.
  rewrite countOccurrences_fits
    by (cbn [bufio.pending]; unfold fits; rewrite Htok; assumption).
  cbn [bufio.pending bufio.fin].
  rewrite count_unfold, Htok. reflexivity.
Qed.

Lemma countOccurrences_ascii_witness :
  countOccurrences (str "cat") (page "cat-cat cat,cat cat") = (1%N, None).
Proof.
  unfold page. rewrite countOccurrences_ascii.
  - vm_compute. reflexivity.
  - repeat constructor.
  - repeat (constructor; [apply Nat.leb_le; vm_compute; reflexivity|]). constructor.
Defined.

(** X6. Counting two streams joined by an ASCII white space byte adds
    up: the tokens of the joined stream are those of the first stream
    followed by those of the second, and when they have room in the
    buffer the count on the joined stream is the sum of the two counts
    (in the 64 bits of a uint), whatever the readers. *)
Theorem countOccurrences_join
        (word : gostring) (a b : list byte) (sep : byte) (e : error)
        (chunks ca cb : list nat) (early ya yb : bool) :
  ascii_space sep = true ->
  Spec.tokens (a ++ sep :: b) = Spec.tokens a ++ Spec.tokens b /\
  (fits (a ++ sep :: b) ->
   countOccurrences word (bufio.mkReader (a ++ sep :: b) e chunks early) =
   (((fst (countOccurrences word (bufio.mkReader a io_EOF ca ya)) +
      fst (countOccurrences word (bufio.mkReader b io_EOF cb yb))) mod uint_max)%N,
    clean e)).
Proof.
  intros Hsep.
  assert (Htok : Spec.tokens (a ++ sep :: b) = Spec.tokens a ++ Spec.tokens b)
    by (rewrite !tokens_eq; apply tokens_from_join; assumption).
  split; [exact Htok|]. intros Hfits.
  assert (Hab : fits a /\ fits b).
  { unfold fits in *. rewrite Htok in Hfits. apply Forall_app in Hfits. exact Hfits. }
  destruct Hab as [Ha Hb].
  rewrite (countOccurrences_fits word (bufio.mkReader (a ++ sep :: b) e chunks early)
                                 Hfits).
  rewrite (countOccurrences_fits word (bufio.mkReader a io_EOF ca ya) Ha).
  rewrite (countOccurrences_fits word (bufio.mkReader b io_EOF cb yb) Hb).
  cbn [fst bufio.pending bufio.fin]. f_equal.
  rewrite !count_unfold, Htok, count_occ_app, Nat2N.inj_add.
  rewrite <- N.Div0.add_mod. reflexivity.
Qed.

Lemma countOccurrences_join_witness :
  countOccurrences (str "cat")
                   (bufio.mkReader (str "a cat sat" ++ "010"%byte :: str "on a cat mat")
                                   io_EOF [] true) = (2%N, None).
Proof.
  assert (Hsep : ascii_space "010"%byte = true) by reflexivity.
  assert (Hfits : fits (str "a cat sat" ++ "010"%byte :: str "on a cat mat"))
    by (apply fitsb_fits; vm_compute; reflexivity).
  destruct (countOccurrences_join (str "cat") (str "a cat sat") (str "on a cat mat")
                                  "010"%byte io_EOF [] [] [] true true true Hsep)
    as [_ H].
  etransitivity; [exact (H Hfits)|]. vm_compute. reflexivity.
Defined.

(** ** main and the goroutines: more on the runs *)

Section Runs.

Variable web : Web.
Variable word : gostring.
Variable numWorkers : Z.
Variable links : list gostring.

Local Abbreviation body := (wordsOnPage_body web word).
Local Abbreviation main_start := (main_start links).
Local Abbreviation main_step := (main_step numWorkers links).
Local Abbreviation worker_step := (worker_step web word).
Local Abbreviation step := (step web word numWorkers links).
Local Abbreviation steps := (steps web word numWorkers links).
Local Abbreviation steps_n := (steps_n web word numWorkers links).
Local Abbreviation reachable := (reachable web word numWorkers links).
Local Abbreviation worker_results := (worker_results web word).
Local Abbreviation ordered_results := (ordered_results web word links).
Local Abbreviation invariant := (invariant web word numWorkers links).
Local Abbreviation measure := (measure numWorkers links).
Local Abbreviation deadlocked := (deadlocked web word numWorkers links).

Lemma steps_n_steps (n : nat) (s : State) : steps_n main_start n s -> reachable s.
Proof.
  induction 1 as [|n s' s'' _ IH Hstep]; [apply steps_refl|].
  eapply steps_step; eassumption.
Qed.

Lemma steps_n_measure (n : nat) (s : State) :
  steps_n main_start n s -> n + measure s <= measure main_start.
Proof.
  induction 1 as [|n s' s'' _ IH Hstep]; [lia|].
  pose proof (measure_step _ _ _ _ _ _ Hstep). lia.
Qed.

Lemma result_chan_open (s : State) : reachable s -> closed (result_chan s) = false.
Proof.
  induction 1 as [|s' s'' _ IH Hstep]; [reflexivity|].
  destruct Hstep as [s s' Hm | s pre post w w' lc rc _ Hw Hs].
  - unfold main_step in Hm.
    destruct (pc s) as [i | [|l rest] | | i | ].
    + destruct (i <? int_of_uint numWorkers)%Z; inversion Hm; subst s'; assumption.
    + inversion Hm; subst s'. assumption.
    + destruct (has_room (link_chan s)); inversion Hm; subst s'. assumption.
    + inversion Hm; subst s'. assumption.
    + destruct (i <? Z.of_nat (length links))%Z.
      * destruct (buf (result_chan s)); inversion Hm; subst s'. assumption.
      * inversion Hm; subst s'. assumption.
    + discriminate.
  - cbn [result_chan].
    destruct w as [ | l | [|res o] | ]; cbn [worker_step] in Hs.
    + destruct (buf (link_chan s)) as [|l q].
      * destruct (closed (link_chan s)); inversion Hs; subst. assumption.
      * inversion Hs; subst. assumption.
    + inversion Hs; subst. assumption.
    + inversion Hs; subst. assumption.
    + destruct (has_room (result_chan s)); inversion Hs; subst. assumption.
    + discriminate.
Qed.

Lemma workers_bound (s : State) :
  invariant s -> (Z.of_nat (length (workers s)) <= Z.max 0 (int_of_uint numWorkers))%Z.
Proof.
  intros Hinv. pose proof (inv_pc _ _ _ _ _ Hinv) as Hok.
  unfold pc_ok, spawned in Hok.
  destruct (pc s); lia.
Qed.

(** With at most one goroutine the Results keep the order of the links. *)
Lemma order_step (s s' : State) :
  (int_of_uint numWorkers <= 1)%Z -> invariant s -> step s s' ->
  ordered_results s' = ordered_results s.
Proof.
  intros Hone Hinv Hstep. pose proof (workers_bound s Hinv) as Hb.
  destruct Hstep as [s s' Hm | s pre post w w' lc rc _ Hw Hs].
  - unfold main_step in Hm. unfold ordered_results.
    destruct (pc s) as [i | [|l rest] | | i | ] eqn:P.
    + destruct (i <? int_of_uint numWorkers)%Z; inversion Hm; subst s';
        cbn [pc link_chan result_chan workers stdout unsent]; [|reflexivity].
      rewrite flat_map_app. cbn [flat_map worker_results]. rewrite !app_nil_r.
      reflexivity.
    + inversion Hm; subst s'. reflexivity.
    + destruct (has_room (link_chan s)); inversion Hm; subst s'.
      cbn [pc link_chan result_chan workers stdout unsent push buf].
      rewrite flat_map_app. cbn [flat_map]. rewrite app_nil_r, <- !app_assoc.
      reflexivity.
    + inversion Hm; subst s'. reflexivity.
    + destruct (i <? Z.of_nat (length links))%Z.
      * destruct (buf (result_chan s)) as [|res q] eqn:B; inversion Hm; subst s'.
        cbn [pc link_chan result_chan workers stdout unsent set_buf buf].
        rewrite <- !app_assoc. reflexivity.
      * inversion Hm; subst s'. reflexivity.
    + discriminate.
  - rewrite Hw, length_app in Hb. cbn [length] in Hb.
    assert (Hpre : pre = []) by (destruct pre; [reflexivity|cbn [length] in Hb; lia]).
    assert (Hpost : post = []) by (destruct post; [reflexivity|cbn [length] in Hb; lia]).
    subst pre post. unfold ordered_results. rewrite Hw.
    cbn [pc link_chan result_chan workers stdout app flat_map].
    destruct w as [ | l | [|res o] | ]; cbn [worker_step] in Hs.
    + destruct (buf (link_chan s)) as [|l q] eqn:B.
      * destruct (closed (link_chan s)); inversion Hs; subst. rewrite B. reflexivity.
      * inversion Hs; subst. cbn [set_buf buf worker_results flat_map].
        rewrite !app_nil_r, <- !app_assoc. reflexivity.
    + inversion Hs; subst. reflexivity.
    + inversion Hs; subst. reflexivity.
    + destruct (has_room (result_chan s)); inversion Hs; subst.
      cbn [push buf worker_results]. rewrite <- !app_assoc. reflexivity.
    + discriminate.
Qed.

Lemma order_reachable (s : State) :
  (int_of_uint numWorkers <= 1)%Z -> reachable s ->
  ordered_results s = flat_map body links.
Proof.
  intros Hone Hr. induction Hr as [|s' s'' Hr IH Hstep].
  - reflexivity.
  - rewrite (order_step s' s'' Hone (invariant_reachable _ _ _ _ _ Hr) Hstep).
    exact IH.
Qed.

End Runs.

Lemma int_of_uint_small (n : Z) :
  (0 <= n < 2 ^ 63)%Z -> int_of_uint n = n.
Proof.
  intros H. unfold int_of_uint. rewrite Z.mod_small by lia. lia.
Qed.

(** X7. When at least one goroutine is started (1 <= int(numWorkers),
    that is 1 <= numWorkers < 2^63), the program never hangs: no state
    that a run gets to is a deadlock, from every such state the run can
    go on until main returns, and no run has more than
    6 * len(links) + 2 * numWorkers + 4 steps. *)
Theorem run_never_hangs
        (web : Web) (word : gostring) (numWorkers : Z) (links : list gostring) :
  (1 <= int_of_uint numWorkers)%Z ->
  (forall s, reachable web word numWorkers links s ->
     ~ deadlocked web word numWorkers links s) /\
  (forall s, reachable web word numWorkers links s ->
     exists s', steps web word numWorkers links s s' /\ pc s' = Exited) /\
  (forall n s, steps_n web word numWorkers links (main_start links) n s ->
     n <= 6 * length links + 2 * Z.to_nat (int_of_uint numWorkers) + 4).
Proof.
  intros Hnw. split; [|split].
  - intros s Hr [Hpc Hstuck].
    destruct (progress web word numWorkers links s Hnw
                       (invariant_reachable _ _ _ _ s Hr) Hpc) as [s' Hstep].
    exact (Hstuck s' Hstep).
  - intros s Hr. apply terminates; [assumption|].
    apply invariant_reachable. assumption.
  - intros n s Hn. pose proof (steps_n_measure _ _ _ _ n s Hn) as Hm.
    unfold measure in Hm. cbn in Hm. rewrite Z.sub_0_r in Hm. lia.
Qed.

Lemma run_never_hangs_witness :
  exists s, steps example_web (str "cat") 3 example_links (main_start example_links) s /\
            pc s = Exited.
Proof.
  assert (Hnw : (1 <= int_of_uint 3)%Z) by (vm_compute; discriminate).
  destruct (run_never_hangs example_web (str "cat") 3 example_links Hnw) as (_ & H & _).
  exact (H (main_start example_links) (steps_refl _ _ _ _ _)).
Defined.

(** X8. With one worker the Results come in the order of the links:
    whatever the interleaving, what main has printed is at every
    moment the beginning of the list of the Results of the links in
    the order given, and when main returns it is the whole list. *)
Theorem one_worker_keeps_order (web : Web) (word : gostring) (links : list gostring) :
  forall s, reachable web word 1 links s ->
    (exists rest,
        flat_map (wordsOnPage_body web word) links = stdout s ++ rest) /\
    (pc s = Exited ->
     stdout s = flat_map (wordsOnPage_body web word) links /\
     map link (stdout s) = links).
Proof.
  intros s Hr.
  assert (Hone : (int_of_uint 1 <= 1)%Z) by (vm_compute; discriminate).
  pose proof (order_reachable web word 1 links s Hone Hr) as Hord.
  unfold ordered_results in Hord. split.
  - eexists. symmetry. exact Hord.
  - intros Hpc.
    destruct (exited_results _ _ _ _ s (invariant_reachable _ _ _ _ s Hr) Hpc)
      as (_ & H1 & H2 & H3).
    rewrite H1, H2, H3, Hpc in Hord. cbn [unsent flat_map app] in Hord.
    rewrite app_nil_r in Hord. split; [exact Hord|].
    rewrite Hord. apply map_link_bodies.
Qed.

Lemma one_worker_keeps_order_witness :
  let s := run example_web (str "cat") 1 example_links 40 (main_start example_links) in
  map link (stdout s) = example_links.
Proof.
  intros s.
  destruct (one_worker_keeps_order example_web (str "cat") example_links s
                                   (run_steps _ _ _ _ 40 _)) as [_ H].
  apply H. vm_compute. reflexivity.
Defined.

(** X9. The sends and the close of main cannot panic, and its sends
    cannot block (its receive waits for a Result): the result channel
    is never closed; main closes the links channel when it is still
    open; and whenever main is at the send of a link, the links channel
    is open and has room, so the send goes through at once. *)
Theorem sends_go_through
        (web : Web) (word : gostring) (numWorkers : Z) (links : list gostring) :
  forall s, reachable web word numWorkers links s ->
    closed (result_chan s) = false /\
    (pc s = Closing -> closed (link_chan s) = false) /\
    (forall l rest, pc s = Submitting (l :: rest) ->
       closed (link_chan s) = false /\
       main_step numWorkers links s =
       Some (mkState (push (link_chan s) l) (result_chan s) (workers s)
                     (Submitting rest) (stdout s))).
Proof.
  intros s Hr. pose proof (invariant_reachable _ _ _ _ s Hr) as Hinv.
  pose proof (inv_pc _ _ _ _ _ Hinv) as Hok. unfold pc_ok in Hok.
  split; [apply (result_chan_open web word numWorkers links s Hr)|]. split.
  - intros Hpc. rewrite Hpc in Hok. apply Hok.
  - intros l rest Hpc. split; [rewrite Hpc in Hok; apply Hok|].
    unfold main_step. rewrite Hpc.
    rewrite (link_chan_has_room _ _ _ _ s l rest Hinv Hpc). reflexivity.
Qed.

Lemma sends_go_through_witness :
  let s := run example_web (str "cat") 1 example_links 3 (main_start example_links) in
  pc s = Submitting [str "404-url"; str "unreachable-url"] /\
  closed (link_chan s) = false.
Proof.
  intros s.
  assert (Hpc : pc s = Submitting [str "404-url"; str "unreachable-url"])
    by (vm_compute; reflexivity).
  destruct (sends_go_through example_web (str "cat") 1 example_links s
                             (run_steps _ _ _ _ 3 _)) as (_ & _ & H).
  split; [exact Hpc|]. exact (proj1 (H _ _ Hpc)).
Defined.

(** X10. When main returns nothing is left behind: the links channel
    is closed and drained, the result channel is empty, and no
    goroutine holds a link or a Result (none is in the middle of a GET
    or has a Result still to send). *)
Theorem exit_leaves_nothing
        (web : Web) (word : gostring) (numWorkers : Z) (links : list gostring) :
  forall s, reachable web word numWorkers links s -> pc s = Exited ->
    buf (link_chan s) = [] /\ closed (link_chan s) = true /\
    buf (result_chan s) = [] /\ Forall idle (workers s).
Proof.
  intros s Hr Hpc. pose proof (invariant_reachable _ _ _ _ s Hr) as Hinv.
  destruct (exited_results _ _ _ _ s Hinv Hpc) as (_ & H1 & H2 & H3).
  pose proof (inv_pc _ _ _ _ _ Hinv) as Hok. unfold pc_ok in Hok. rewrite Hpc in Hok.
  split; [assumption|]. split; [apply Hok|]. split; [assumption|].
  induction (workers s) as [|w ws IH]; [constructor|].
  cbn [flat_map] in H3. apply app_eq_nil in H3 as [Hw Hws].
  constructor; [|apply IH; assumption].
  unfold idle. destruct w as [ | l | [|res o] | ]; auto.
  - cbn [worker_results] in Hw. pose proof (body_length web word l) as Hl.
    rewrite Hw in Hl. discriminate.
  - discriminate.
Qed.

Lemma exit_leaves_nothing_witness :
  let s := run example_web (str "cat") 2 example_links 40 (main_start example_links) in
  buf (link_chan s) = [] /\ closed (link_chan s) = true /\
  buf (result_chan s) = [] /\ Forall idle (workers s).
Proof.
  intros s.
  apply (exit_leaves_nothing example_web (str "cat") 2 example_links s).
  - apply run_steps.
  - vm_compute. reflexivity.
Defined.

(** X11. main starts all the goroutines before it sends the first
    link: while it is in its first loop nothing is queued, printed or
    held, and the goroutines started so far are as many as the turns of
    the loop; after the loop their number is int(numWorkers), or none
    when that is negative: for a numWorkers below 2^63 it is
    numWorkers. *)
Theorem goroutines_started_first
        (web : Web) (word : gostring) (numWorkers : Z) (links : list gostring) :
  forall s, reachable web word numWorkers links s ->
    (forall i, pc s = Spawning i ->
       Z.of_nat (length (workers s)) = i /\
       buf (link_chan s) = [] /\ buf (result_chan s) = [] /\
       stdout s = [] /\ Forall idle (workers s)) /\
    ((forall i, pc s <> Spawning i) ->
     Z.of_nat (length (workers s)) = Z.max 0 (int_of_uint numWorkers) /\
     ((0 <= numWorkers < 2 ^ 63)%Z -> Z.of_nat (length (workers s)) = numWorkers)).
Proof.
  intros s Hr. pose proof (invariant_reachable _ _ _ _ s Hr) as Hinv.
  pose proof (inv_pc _ _ _ _ _ Hinv) as Hok. unfold pc_ok, spawned in Hok.
  pose proof (all_results_length _ _ _ _ s Hinv) as Hlen.
  split.
  - intros i Hpc. rewrite Hpc in Hok, Hlen. cbn [unsent] in Hlen.
    destruct Hok as (_ & Hw & _ & Ho).
    assert (H1 : buf (link_chan s) = []) by (apply length_zero_iff_nil; lia).
    assert (H2 : buf (result_chan s) = []) by (apply length_zero_iff_nil; lia).
    assert (H3 : flat_map (worker_results web word) (workers s) = [])
      by (apply length_zero_iff_nil; lia).
    repeat split; auto.
    clear Hw Hlen. induction (workers s) as [|w ws IH]; [constructor|].
    cbn [flat_map] in H3. apply app_eq_nil in H3 as [Hw Hws].
    constructor; [|apply IH; assumption].
    unfold idle. destruct w as [ | l | [|res o] | ]; auto.
    + cbn [worker_results] in Hw. pose proof (body_length web word l) as Hl.
      rewrite Hw in Hl. discriminate.
    + discriminate.
  - intros Hpc.
    assert (Hs : Z.of_nat (length (workers s)) = Z.max 0 (int_of_uint numWorkers)).
    { destruct (pc s) as [i | | | | ]; try apply Hok. destruct (Hpc i eq_refl). }
    split; [exact Hs|]. intros Hn. rewrite (int_of_uint_small _ Hn) in Hs. lia.
Qed.

Lemma goroutines_started_first_witness :
  let s := run example_web (str "cat") 5 example_links 7 (main_start example_links) in
  Z.of_nat (length (workers s)) = 5%Z.
Proof.
  intros s.
  destruct (goroutines_started_first example_web (str "cat") 5 example_links s
                                     (run_steps _ _ _ _ 7 _)) as [_ H].
  apply H.
  - intros i. vm_compute. discriminate.
  - lia.
Defined.

(** ** Result.String: the printed text *)

Lemma digit_to_N (d : N) :
  (d < 10)%N -> Byte.to_N (fmt.digit d) = (Byte.to_N "0"%byte + d)%N.
Proof.
  intros H.
  assert (E : (d = 0 \/ d = 1 \/ d = 2 \/ d = 3 \/ d = 4 \/
               d = 5 \/ d = 6 \/ d = 7 \/ d = 8 \/ d = 9)%N) by lia.
  decompose [or] E; subst; reflexivity.
Qed.

Lemma digit_is_digit (d : N) : (d < 10)%N -> is_digit (fmt.digit d).
Proof.
  intros H. unfold is_digit. rewrite (digit_to_N d H).
  change (Byte.to_N "0"%byte) with 48%N. change (Byte.to_N "9"%byte) with 57%N. lia.
Qed.

Lemma last_digit (u : N) : (u - u / 10 * 10 = u mod 10)%N.
Proof.
  rewrite N.Div0.mod_eq. lia.
Qed.

Lemma fmtInteger_loop_digits (fuel : nat) :
  forall (u : N) (buf : list byte),
    Forall is_digit buf -> Forall is_digit (fmt.fmtInteger_loop fuel u buf).
Proof.
  induction fuel as [|fuel IH]; intros u buf Hb; cbn [fmt.fmtInteger_loop].
  - exact Hb.
  - destruct (10 <=? u)%N eqn:E.
    + cbv zeta. apply IH. constructor; [|exact Hb].
      apply digit_is_digit. rewrite last_digit. apply N.mod_lt. discriminate.
    + apply N.leb_gt in E. constructor; [|exact Hb]. apply digit_is_digit. exact E.
Qed.

Lemma digits_value_step (buf : list byte) (d a : N) :
  (d < 10)%N ->
  fold_left (fun a b => (10 * a + (Byte.to_N b - Byte.to_N "0"%byte))%N)
            (fmt.digit d :: buf) a =
  fold_left (fun a b => (10 * a + (Byte.to_N b - Byte.to_N "0"%byte))%N)
            buf (10 * a + d)%N.
Proof.
  intros H. cbn [fold_left]. rewrite (digit_to_N d H).
  replace (Byte.to_N "0"%byte + d - Byte.to_N "0"%byte)%N with d by lia.
  reflexivity.
Qed.

Lemma fmtInteger_loop_value (fuel : nat) :
  forall (u : N) (buf : list byte),
    (u < 10 ^ N.of_nat fuel)%N ->
    digits_value (fmt.fmtInteger_loop fuel u buf) =
    fold_left (fun a b => (10 * a + (Byte.to_N b - Byte.to_N "0"%byte))%N) buf u.
Proof.
  unfold digits_value.
  induction fuel as [|fuel IH]; intros u buf Hu; cbn [fmt.fmtInteger_loop].
  - change (10 ^ N.of_nat 0)%N with 1%N in Hu.
    replace u with 0%N by lia. reflexivity.
  - rewrite Nat2N.inj_succ, N.pow_succ_r' in Hu.
    destruct (10 <=? u)%N eqn:E.
    + cbv zeta. rewrite IH.
      * rewrite digits_value_step.
        -- f_equal. rewrite last_digit. pose proof (N.Div0.div_mod u 10). lia.
        -- rewrite last_digit. apply N.mod_lt. discriminate.
      * apply N.Div0.div_lt_upper_bound. exact Hu.
    + apply N.leb_gt in E. rewrite digits_value_step by exact E.
      f_equal.
Qed.

(** The digits that [%d] writes for a [uint] read back as the number. *)
Lemma fmtInteger_value (u : N) :
  (u < uint_max)%N -> digits_value (fmt.fmtInteger u) = u.
Proof.
  intros Hu. unfold fmt.fmtInteger. rewrite fmtInteger_loop_value.
  - reflexivity.
  - unfold uint_max in Hu. change (10 ^ N.of_nat 20)%N with 100000000000000000000%N.
    change (2 ^ 64)%N with 18446744073709551616%N in Hu. lia.
Qed.

Lemma fmtInteger_digits (u : N) : Forall is_digit (fmt.fmtInteger u).
Proof.
  apply fmtInteger_loop_digits. constructor.
Qed.

Lemma nl_not_digit : ~ is_digit nl.
Proof.
  unfold is_digit. vm_compute. intros [H _]. apply H. reflexivity.
Qed.

(** X12. The text that Result.String writes tells the Result: two
    Results whose links hold no line break and whose texts are the
    same have the same link, the same count and the same error text
    (a nil error is written <nil>). *)
Theorem Result_String_tells_the_result (r1 r2 : Result) :
  Forall (fun b => b <> nl) (link r1) -> Forall (fun b => b <> nl) (link r2) ->
  (count r1 < uint_max)%N -> (count r2 < uint_max)%N ->
  Result_String r1 = Result_String r2 ->
  link r1 = link r2 /\ count r1 = count r2 /\
  fmt.verb_v (err r1) = fmt.verb_v (err r2).
Proof.
  intros Hl1 Hl2 Hc1 Hc2 E. unfold Result_String in E.
  apply (app_cons_unique byte (fun b => b <> nl) (fun b => b <> nl)) in E;
    [| assumption | intros H; apply H; reflexivity
     | assumption | intros H; apply H; reflexivity].
  destruct E as (El & _ & E). split; [exact El|].
  injection E as E.
  apply (app_cons_unique byte is_digit is_digit) in E;
    [| apply fmtInteger_digits | apply nl_not_digit
     | apply fmtInteger_digits | apply nl_not_digit].
  destruct E as (Ed & _ & E). split.
  - rewrite <- (fmtInteger_value (count r1) Hc1), <- (fmtInteger_value (count r2) Hc2).
    rewrite Ed. reflexivity.
  - injection E as E. exact E.
Qed.

Lemma Result_String_tells_the_result_witness :
  link (mkResult (str "ok-url") 2 None) =
  link (mkResult (str "ok-url") 2 (Some (errors_New "<nil>"))) /\
  count (mkResult (str "ok-url") 2 None) =
  count (mkResult (str "ok-url") 2 (Some (errors_New "<nil>"))) /\
  fmt.verb_v (err (mkResult (str "ok-url") 2 None)) =
  fmt.verb_v (err (mkResult (str "ok-url") 2 (Some (errors_New "<nil>")))).
Proof.
  apply Result_String_tells_the_result.
  - repeat constructor; discriminate.
  - repeat constructor; discriminate.
  - reflexivity.
  - reflexivity.
  - reflexivity.
Defined.

(** ** parseCLI: what it lets through *)

Lemma gostring_eqb_nil (w : gostring) :
  gostring_eqb w [] = true <-> w = [].
Proof.
  unfold gostring_eqb. destruct (list_eq_dec Byte.byte_eq_dec w []) as [E|E].
  - tauto.
  - split; [discriminate|contradiction].
Qed.

Lemma parseCLI_returns (prog word : gostring) (numWorkers : Z) (args : list gostring) :
  word <> [] -> (1 <= numWorkers)%Z -> args <> [] ->
  parseCLI prog word numWorkers args = Return (word, numWorkers, args).
Proof.
  intros Hw Hn Ha. unfold parseCLI.
  destruct (gostring_eqb word []) eqn:E1.
  { apply gostring_eqb_nil in E1. contradiction. }
  destruct (numWorkers <? 1)%Z eqn:E2.
  { apply Z.ltb_lt in E2. lia. }
  destruct args as [|a args]; [contradiction|]. reflexivity.
Qed.

Lemma parseCLI_returned (prog word : gostring) (numWorkers : Z) (args : list gostring)
      (r : gostring * Z * list gostring) :
  parseCLI prog word numWorkers args = Return r ->
  r = (word, numWorkers, args) /\ word <> [] /\ (1 <= numWorkers)%Z /\ args <> [].
Proof.
  unfold parseCLI. destruct (gostring_eqb word []) eqn:E1; [discriminate|].
  destruct (numWorkers <? 1)%Z eqn:E2; [discriminate|].
  destruct args as [|a args]; [discriminate|]. cbn [length Nat.ltb Nat.leb].
  intros H. injection H as <-. split; [reflexivity|]. split; [|split].
  - intros ->. cbn in E1. discriminate.
  - apply Z.ltb_ge in E2. exact E2.
  - discriminate.
Qed.

(** X13. parseCLI returns exactly when the word is not empty, the
    number of workers is at least 1 and there is at least one link,
    and then it returns the three as they are.  Otherwise it exits
    with status 1, after the message of the first check that fails
    (the word, then the workers, then the links) and the usage text. *)
Theorem parseCLI_checks (prog word : gostring) (numWorkers : Z) (args : list gostring) :
  (word <> [] /\ (1 <= numWorkers)%Z /\ args <> [] <->
   exists r, parseCLI prog word numWorkers args = Return r) /\
  (forall r, parseCLI prog word numWorkers args = Return r ->
             r = (word, numWorkers, args)) /\
  (word = [] ->
   parseCLI prog word numWorkers args =
   Exit 1 (str "Need a word to process." ++ [nl; nl] ++ flag.Usage prog)) /\
  (word <> [] -> (numWorkers < 1)%Z ->
   parseCLI prog word numWorkers args =
   Exit 1 (str "Number of workers must be greater than 0." ++ [nl; nl] ++
           flag.Usage prog)) /\
  (word <> [] -> (1 <= numWorkers)%Z -> args = [] ->
   parseCLI prog word numWorkers args =
   Exit 1 (str "Need links to process." ++ [nl; nl] ++ flag.Usage prog)).
Proof.
  split; [split|split; [|split; [|split]]].
  - intros (Hw & Hn & Ha). eexists. apply parseCLI_returns; assumption.
  - intros [r H]. apply parseCLI_returned in H. tauto.
  - intros r H. apply parseCLI_returned in H. tauto.
  - intros ->. reflexivity.
  - intros Hw Hn. unfold parseCLI.
    destruct (gostring_eqb word []) eqn:E1.
    { apply gostring_eqb_nil in E1. contradiction. }
    apply Z.ltb_lt in Hn. rewrite Hn. reflexivity.
  - intros Hw Hn ->. unfold parseCLI.
    destruct (gostring_eqb word []) eqn:E1.
    { apply gostring_eqb_nil in E1. contradiction. }
    destruct (numWorkers <? 1)%Z eqn:E2.
    { apply Z.ltb_lt in E2. lia. }
    reflexivity.
Qed.

Lemma parseCLI_checks_witness :
  parseCLI (str "spinarak") (str "cat") 0 [] =
  Exit 1 (str "Number of workers must be greater than 0." ++ [nl; nl] ++
          flag.Usage (str "spinarak")).
Proof.
  destruct (parseCLI_checks (str "spinarak") (str "cat") 0 []) as (_ & _ & _ & H & _).
  apply H.
  - discriminate.
  - lia.
Defined.

(** X14. What parseCLI lets through, main brings to its end, for a
    number of workers below 2^63: with the values that parseCLI
    returned, no state of a run is a deadlock, every run can go on
    until main returns, and main has then printed one Result for each
    link, at least one. *)
Theorem accepted_arguments_run_to_the_end
        (web : Web) (prog word : gostring) (numWorkers : Z) (args : list gostring)
        (word' : gostring) (numWorkers' : Z) (links : list gostring) :
  parseCLI prog word numWorkers args = Return (word', numWorkers', links) ->
  (numWorkers < 2 ^ 63)%Z ->
  forall s, reachable web word' numWorkers' links s ->
    ~ deadlocked web word' numWorkers' links s /\
    (exists s', steps web word' numWorkers' links s s' /\ pc s' = Exited) /\
    (pc s = Exited ->
     Permutation (stdout s) (flat_map (wordsOnPage_body web word') links) /\
     length (stdout s) = length links /\ 1 <= length links).
Proof.
  intros Hp Hn s Hr. apply parseCLI_returned in Hp.
  destruct Hp as (E & _ & H1 & Ha). injection E as -> -> ->.
  assert (Hnw : (1 <= int_of_uint numWorkers)%Z)
    by (rewrite int_of_uint_small; lia).
  pose proof (invariant_reachable _ _ _ _ s Hr) as Hinv.
  split; [|split].
  - intros [Hpc Hstuck].
    destruct (progress web word numWorkers args s Hnw Hinv Hpc) as [s' Hstep].
    exact (Hstuck s' Hstep).
  - apply terminates; assumption.
  - intros Hpc.
    destruct (exited_results _ _ _ _ s Hinv Hpc) as (HP & _).
    split; [exact HP|]. split.
    + rewrite (Permutation_length HP). apply flat_map_body_length.
    + destruct args; [contradiction|]. cbn [length]. lia.
Qed.

Lemma accepted_arguments_run_to_the_end_witness :
  let s := run example_web (str "cat") 2 example_links 40 (main_start example_links) in
  length (stdout s) = 3.
Proof.
  intros s.
  assert (Hp : parseCLI (str "spinarak") (str "cat") 2 example_links =
               Return (str "cat", 2%Z, example_links)) by reflexivity.
  assert (Hn : (2 < 2 ^ 63)%Z) by reflexivity.
  destruct (accepted_arguments_run_to_the_end
              example_web _ _ _ _ _ _ _ Hp Hn s (run_steps _ _ _ _ 40 _))
    as (_ & _ & H).
  apply H. vm_compute. reflexivity.
Defined.

(** ** The Results of main, and the worker count that yields none *)

(** X15. For every list of N links main never prints more than N
    Results, and when it returns it has printed exactly N, whose links
    are the links submitted, each as often as it was submitted (a link
    submitted twice has two Results); and when at least one goroutine
    is started (1 <= int(numWorkers)), every run can go on until main
    returns. *)
Theorem main_one_result_per_link
        (web : Web) (word : gostring) (numWorkers : Z) (links : list gostring) :
  (forall s, reachable web word numWorkers links s ->
     length (stdout s) <= length links) /\
  (forall s, reachable web word numWorkers links s -> pc s = Exited ->
     length (stdout s) = length links /\
     Permutation (map link (stdout s)) links) /\
  ((1 <= int_of_uint numWorkers)%Z ->
   forall s, reachable web word numWorkers links s ->
     exists s', steps web word numWorkers links s s' /\ pc s' = Exited).
Proof.
  split; [|split].
  - intros s Hr.
    pose proof (all_results_length _ _ _ _ s (invariant_reachable _ _ _ _ s Hr)). lia.
  - intros s Hr Hpc.
    destruct (exited_results _ _ _ _ s (invariant_reachable _ _ _ _ s Hr) Hpc)
      as (Hperm & _).
    split.
    + rewrite (Permutation_length Hperm). apply flat_map_body_length.
    + rewrite <- (map_link_bodies web word links). apply Permutation_map. assumption.
  - intros Hnw s Hr. apply terminates; [assumption|].
    apply invariant_reachable. assumption.
Qed.

Lemma main_one_result_per_link_witness :
  let links := [str "ok-url"; str "404-url"; str "ok-url"] in
  exists s,
    steps example_web (str "cat") 2 links (main_start links) s /\
    pc s = Exited /\ length (stdout s) = 3 /\
    Permutation (map link (stdout s)) links.
Proof.
  intros links.
  assert (Hnw : (1 <= int_of_uint 2)%Z) by (vm_compute; discriminate).
  destruct (main_one_result_per_link example_web (str "cat") 2 links)
    as (_ & Hexit & Hlive).
  destruct (Hlive Hnw (main_start links) (steps_refl _ _ _ _ _)) as (s & Hs & Hpc).
  exists s. split; [exact Hs|]. split; [exact Hpc|]. exact (Hexit s Hs Hpc).
Defined.

(** C1 (the code at the input where it fails).  A worker count from
    2^63 on passes the check of parseCLI, which returns it as it is;
    main then starts int(numWorkers) goroutines, a negative number, so
    none.  For every non-empty list of N links no Result is ever
    printed: in every state of every run main has printed nothing,
    fewer than the N Results of the claim, and has not returned. *)
Theorem huge_worker_count_prints_nothing
        (web : Web) (prog word : gostring) (numWorkers : Z) (links : list gostring) :
  (2 ^ 63 <= numWorkers < 2 ^ 64)%Z -> word <> [] -> links <> [] ->
  parseCLI prog word numWorkers links = Return (word, numWorkers, links) /\
  (forall s, reachable web word numWorkers links s ->
     stdout s = [] /\ length (stdout s) < length links /\ pc s <> Exited).
Proof.
  intros Hnw Hword Hlinks. split.
  - apply parseCLI_returns; [assumption|lia|assumption].
  - intros s Hr.
    assert (Hint : (int_of_uint numWorkers <= 0)%Z)
      by (rewrite int_of_uint_huge by assumption; lia).
    destruct (no_worker_no_exit web word numWorkers links Hint Hlinks s Hr)
      as (_ & _ & Hout & Hpc).
    split; [exact Hout|]. split; [|exact Hpc].
    rewrite Hout. destruct links; [contradiction|]. cbn [length]. lia.
Qed.

Lemma huge_worker_count_prints_nothing_witness :
  parseCLI (str "spinarak") (str "cat") (2 ^ 63) [str "ok-url"] =
  Return (str "cat", (2 ^ 63)%Z, [str "ok-url"]) /\
  let s := run example_web (str "cat") (2 ^ 63) [str "ok-url"] 10
               (main_start [str "ok-url"]) in
  stdout s = [] /\ length (stdout s) < 1 /\ pc s <> Exited.
Proof.
  assert (Hnw : (2 ^ 63 <= 2 ^ 63 < 2 ^ 64)%Z) by lia.
  assert (Hw : str "cat" <> []) by discriminate.
  assert (Hl : [str "ok-url"] <> []) by discriminate.
  destruct (huge_worker_count_prints_nothing
              example_web (str "spinarak") (str "cat") (2 ^ 63) [str "ok-url"]
              Hnw Hw Hl) as [Hp Hs].
  split; [exact Hp|]. intros s. apply Hs. apply run_steps.
Defined.
